(** * docformatter: a shallow embedding of [docformatter.py]

    The program reads a Python source text, walks the token stream of
    [tokenize.generate_tokens] and rewrites docstrings.  Python [str] values
    are modelled as lists of characters, exceptions as an error result, the
    [for] loop of [format_code] as a fold that threads its local variables,
    and the two regular expressions through a small backtracking matcher. *)

From Stdlib Require Import Ascii String ZArith Lia Bool Arith List.
Import ListNotations.

(** ** Python strings *)

Module Py.

Definition str := list ascii.

(** Literals of the source are written [lit "..."]. *)
Definition lit (s : string) : str := list_ascii_of_string s.

Definition LF : ascii := "010"%char.
Definition TAB : ascii := "009"%char.
Definition SP : ascii := " "%char.
Definition DOT : ascii := "."%char.
Definition DQ : ascii := "034"%char.
Definition SQ : ascii := "'"%char.

(** [str.isspace] of one character, for code points below 256. *)
Definition isspace (c : ascii) : bool :=
  let n := nat_of_ascii c in
  ((9 <=? n) && (n <=? 13)) || ((28 <=? n) && (n <=? 32))
  || (n =? 133) || (n =? 160).

(** Truth value of a string: [if s:] holds for the non-empty ones. *)
Definition truthy (s : str) : bool :=
  match s with [] => false | _ :: _ => true end.

Fixpoint lstrip (s : str) : str :=
  match s with
  | c :: t => if isspace c then lstrip t else s
  | [] => []
  end.

Definition rstrip (s : str) : str := rev (lstrip (rev s)).

Definition strip (s : str) : str := rstrip (lstrip s).

Fixpoint startswith (s prefix : str) : bool :=
  match prefix, s with
  | [], _ => true
  | p :: ps, c :: t => Ascii.eqb c p && startswith t ps
  | _ :: _, [] => false
  end.

Definition endswith (s suffix : str) : bool :=
  startswith (rev s) (rev suffix).

(** [s.partition(sep)] when [sep] occurs: the text before and after the
    leftmost occurrence. *)
Fixpoint partition (sep s : str) : option (str * str) :=
  if startswith s sep then Some ([], skipn (length sep) s)
  else match s with
       | [] => None
       | c :: t =>
           match partition sep t with
           | Some (a, b) => Some (c :: a, b)
           | None => None
           end
       end.

(** [s.split(sep, 1)] *)
Definition split1 (sep s : str) : list str :=
  match partition sep s with
  | Some (a, b) => [a; b]
  | None => [s]
  end.

(** [s.rsplit(sep, 1)]: the rightmost occurrence of [sep] is the leftmost
    occurrence of the reversed separator in the reversed string. *)
Definition rsplit1 (sep s : str) : list str :=
  match partition (rev sep) (rev s) with
  | Some (a, b) => [rev b; rev a]
  | None => [s]
  end.

(** [s.split(sep)] for a separator of one character. *)
Fixpoint split (sep : ascii) (s : str) : list str :=
  match s with
  | [] => [[]]
  | c :: t =>
      if Ascii.eqb c sep then [] :: split sep t
      else match split sep t with
           | l :: ls => (c :: l) :: ls
           | [] => [[c]]
           end
  end.

(** [sep.join(parts)] *)
Fixpoint join (sep : str) (parts : list str) : str :=
  match parts with
  | [] => []
  | x :: rest =>
      match rest with
      | [] => x
      | _ :: _ => x ++ sep ++ join sep rest
      end
  end.

(** Exceptions the program can raise. *)
Inductive exn := AssertionError | IndexError | TokenError.

Inductive result (A : Type) :=
| Ok (a : A)
| Raise (e : exn).

Arguments Ok {A} a.
Arguments Raise {A} e.

Definition bind {A B} (m : result A) (f : A -> result B) : result B :=
  match m with
  | Ok a => f a
  | Raise e => Raise e
  end.

(** [l[i]] *)
Definition index {A} (l : list A) (i : nat) : result A :=
  match nth_error l i with
  | Some a => Ok a
  | None => Raise IndexError
  end.

(** [assert b] *)
Definition assert (b : bool) : result unit :=
  if b then Ok tt else Raise AssertionError.

End Py.

Import Py.

Notation "x <- m ;; k" := (bind m (fun x => k))
  (at level 61, m at next level, right associativity).
Notation "m ;;; k" := (bind m (fun _ => k))
  (at level 61, right associativity).

(** ** Regular expressions

    The fragment of [re] the program uses: single characters, the class
    [\s], a starred single-character matcher and concatenation, matched
    greedily with backtracking.  Neither pattern of the program matches the
    empty string. *)

Module Re.

Inductive atom :=
| Lit (c : ascii)       (* a literal character, e.g. [\.] or [\n] *)
| Space.                (* [\s] *)

Inductive regex :=
| Atom (a : atom)
| Star (a : atom)
| Seq (r1 r2 : regex).

Definition atom_matches (a : atom) (c : ascii) : bool :=
  match a with
  | Lit x => Ascii.eqb c x
  | Space => isspace c
  end.

(** Greedy star: take one more character when possible, give it back when
    the continuation fails. *)
Fixpoint star_k (a : atom) (k : str -> option str) (s : str) : option str :=
  match s with
  | c :: t =>
      if atom_matches a c then
        match star_k a k t with
        | Some r => Some r
        | None => k s
        end
      else k s
  | [] => k []
  end.

Fixpoint match_k (r : regex) (k : str -> option str) (s : str) : option str :=
  match r with
  | Atom a =>
      match s with
      | c :: t => if atom_matches a c then k t else None
      | [] => None
      end
  | Star a => star_k a k s
  | Seq r1 r2 => match_k r1 (match_k r2 k) s
  end.

(** [re.match]: the text left after the match at the start of [s]. *)
Definition match_prefix (r : regex) (s : str) : option str :=
  match_k r Some s.

(** [re.search]: the text before and after the leftmost match. *)
Fixpoint search (r : regex) (s : str) : option (str * str) :=
  match match_prefix r s with
  | Some rest => Some ([], rest)
  | None =>
      match s with
      | [] => None
      | c :: t =>
          match search r t with
          | Some (a, b) => Some (c :: a, b)
          | None => None
          end
      end
  end.

(** [re.split(r, s, maxsplit=1)] *)
Definition split1 (r : regex) (s : str) : list str :=
  match search r s with
  | Some (a, b) => [a; b]
  | None => [s]
  end.

(** [re.sub(r, repl, s)]: scan left to right, replace each match and go on
    after it.  The fuel is the length of the text, which is enough as every
    match takes at least one character. *)
Fixpoint sub_fuel (fuel : nat) (r : regex) (repl s : str) : str :=
  match fuel with
  | O => s
  | S n =>
      match s with
      | [] => []
      | c :: t =>
          match match_prefix r s with
          | Some rest => repl ++ sub_fuel n r repl rest
          | None => c :: sub_fuel n r repl t
          end
      end
  end.

Definition sub (r : regex) (repl s : str) : str :=
  sub_fuel (length s) r repl s.

End Re.

(** ** Tokens of [tokenize] *)

Module Tokenize.

Inductive token_type :=
| ENDMARKER | NAME | NUMBER | STRING | NEWLINE | INDENT | DEDENT
| OP | COMMENT | NL | ERRORTOKEN.

Definition token_type_eqb (a b : token_type) : bool :=
  match a, b with
  | ENDMARKER, ENDMARKER | NAME, NAME | NUMBER, NUMBER | STRING, STRING
  | NEWLINE, NEWLINE | INDENT, INDENT | DEDENT, DEDENT | OP, OP
  | COMMENT, COMMENT | NL, NL | ERRORTOKEN, ERRORTOKEN => true
  | _, _ => false
  end.

(** A token is the tuple (type, string, (start row, start column),
    (end row, end column), line); the program reads the first four. *)
Record token := Token {
  tok_type : token_type;
  tok_string : str;
  tok_start : Z * Z;
  tok_end : Z * Z
}.

End Tokenize.

Import Tokenize.

(** ** The program *)

Module Docformatter.

Definition triple_double : str := [DQ; DQ; DQ].
Definition triple_single : str := [SQ; SQ; SQ].
Definition quadruple_single : str := [SQ; SQ; SQ; SQ].

(** [starts_with_triple], lines 45-48.  The second literal of the source
    holds four single quotes. *)
Definition starts_with_triple (string : str) : bool :=
  startswith (strip string) triple_double
  || startswith (strip string) quadruple_single.

(** The pattern ['\s*\n\s*'] of [normalize_summary]. *)
Definition newline_run : Re.regex :=
  Re.Seq (Re.Star Re.Space)
         (Re.Seq (Re.Atom (Re.Lit LF)) (Re.Star Re.Space)).

(** The pattern ['\.\s'] of [split_summary_and_description]. *)
Definition period_space : Re.regex :=
  Re.Seq (Re.Atom (Re.Lit DOT)) (Re.Atom Re.Space).

(** [normalize_summary], lines 106-114 *)
Definition normalize_summary (summary : str) : str :=
  let summary := Re.sub newline_run [SP] (strip summary) in
  if negb (endswith summary [DOT]) then summary ++ [DOT] else summary.

(** [strip_docstring], lines 96-103 *)
Definition strip_docstring (docstring : str) : result str :=
  triple <- (if startswith (lstrip docstring) triple_single
             then assert (endswith (rstrip docstring) triple_single) ;;;
                  Ok triple_single
             else Ok triple_double) ;;
  after <- index (Py.split1 triple docstring) 1 ;;
  inner <- index (rsplit1 triple after) 0 ;;
  Ok (strip inner).

(** [split_summary_and_description], lines 83-93 *)
Definition split_summary_and_description (contents : str) : str * str :=
  let split := Py.split LF contents in
  if (1 <? length split) && negb (truthy (strip (nth 1 split []))) then
    (nth 0 split [], join [LF] (skipn 2 split))
  else
    let split := Re.split1 period_space contents in
    if length split =? 2 then
      (strip (nth 0 split []) ++ [DOT], strip (nth 1 split []))
    else
      (strip (nth 0 split []), []).

(** [indent_non_indented], lines 75-80 *)
Definition indent_non_indented (line indentation : str) : str :=
  if list_eq_dec ascii_dec (lstrip line) line then indentation ++ line
  else line.

(** [format_docstring], lines 51-72.  The template of line 61-66 is
    three double quotes, the summary, two line breaks, the description, two
    line breaks, the indentation and three double quotes. *)
Definition format_docstring (indentation docstring : str) : result str :=
  contents <- strip_docstring docstring ;;
  if negb (truthy contents) then Ok []
  else
    let '(summary, description) := split_summary_and_description contents in
    if truthy description then
      Ok (triple_double ++ normalize_summary summary ++ [LF; LF]
          ++ join [LF]
               (map (fun l => rstrip (indent_non_indented l indentation))
                    (Py.split LF description))
          ++ [LF; LF] ++ indentation ++ triple_double)
    else
      Ok (triple_double ++ contents ++ triple_double).

(** The local variables of the loop of [format_code]. *)
Record locals := Locals {
  formatted : str;
  previous_token_string : str;
  previous_token_type : option token_type;
  last_row : Z;
  last_column : Z
}.

(** Lines 13-17 *)
Definition initial : locals := Locals [] [] None 0 (-1).

(** The test of lines 29-31: a string token that is sent to
    [format_docstring]. *)
Definition is_docstring (previous_token_type : option token_type)
    (token : token) : bool :=
  token_type_eqb (tok_type token) STRING
  && starts_with_triple (tok_string token)
  && match previous_token_type with
     | Some ty => token_type_eqb ty INDENT
     | None => false
     end.

(** One iteration of the loop, lines 19-40. *)
Definition loop_body (st : locals) (token : token) : result locals :=
  let token_type := tok_type token in
  let token_string := tok_string token in
  let '(start_row, start_column) := tok_start token in
  let '(end_row, end_column) := tok_end token in
  let last_column :=
    if (start_row >? last_row st)%Z then 0%Z else last_column st in
  let formatted :=
    if (start_column >? last_column)%Z
    then formatted st ++ repeat SP (Z.to_nat (start_column - last_column))
    else formatted st in
  text <- (if is_docstring (previous_token_type st) token
           then format_docstring (previous_token_string st) token_string
           else Ok token_string) ;;
  Ok (Locals (formatted ++ text) token_string (Some token_type)
             end_row end_column).

Fixpoint loop (st : locals) (tokens : list token) : result locals :=
  match tokens with
  | [] => Ok st
  | token :: rest => st' <- loop_body st token ;; loop st' rest
  end.

(** [format_code] once the source is tokenized. *)
Definition format_tokens (tokens : list token) : result str :=
  st <- loop initial tokens ;; Ok (formatted st).

(** [format_code], lines 10-42.  [tokenize.generate_tokens] belongs to the
    Python library; it is a parameter, and raises on malformed text. *)
Definition format_code (generate_tokens : str -> result (list token))
    (source : str) : result str :=
  tokens <- generate_tokens source ;; format_tokens tokens.

End Docformatter.

Import Docformatter.

(** ** Notions the statements use *)

Module Notions.

(** A string made of whitespace characters only. *)
Definition all_space (s : str) : bool := forallb isspace s.

(** The first character of [s], if any, is not whitespace. *)
Definition no_leading_space (s : str) : bool :=
  match s with
  | c :: _ => negb (isspace c)
  | [] => true
  end.

Definition no_trailing_space (s : str) : bool := no_leading_space (rev s).

(** [s] starts and ends with a character that is not whitespace. *)
Definition trimmed (s : str) : bool :=
  truthy s && no_leading_space s && no_trailing_space s.

(** A period immediately followed by a whitespace character occurs in [s]. *)
Fixpoint has_period_space (s : str) : bool :=
  match s with
  | c :: t =>
      (Ascii.eqb c DOT && match t with d :: _ => isspace d | [] => false end)
      || has_period_space t
  | [] => false
  end.

(** A line break lies in the whitespace that [s] starts with. *)
Fixpoint newline_ahead (s : str) : bool :=
  match s with
  | c :: t => isspace c && (Ascii.eqb c LF || newline_ahead t)
  | [] => false
  end.

(** The substitution of [normalize_summary]. *)
Definition collapse (s : str) : str := Re.sub newline_run [SP] s.

(** The second line of the contents exists and is blank. *)
Definition second_line_blank (contents : str) : bool :=
  match Py.split LF contents with
  | _ :: second :: _ => all_space second
  | _ => false
  end.

(** The literal text begins, after trimming, with three double quotes or
    with three single quotes. *)
Definition triple_quoted (s : str) : bool :=
  startswith (strip s) triple_double || startswith (strip s) triple_single.


(** The spaces that move a token from the cursor to its start column; the
    column cursor restarts at 0 on a new row. *)
Definition gap (row column : Z) (t : token) : str :=
  let column := if (row <? fst (tok_start t))%Z then 0%Z else column in
  repeat SP (Z.to_nat (snd (tok_start t) - column)).

(** The token texts in order, each one moved to its start column with
    spaces. *)
Fixpoint spaced (row column : Z) (tokens : list token) : str :=
  match tokens with
  | [] => []
  | t :: rest =>
      gap row column t ++ tok_string t
      ++ spaced (fst (tok_end t)) (snd (tok_end t)) rest
  end.

(** The lines of a text with their line ends, as [readline] returns them. *)
Fixpoint readlines (s : str) : list str :=
  match s with
  | [] => []
  | c :: t =>
      if Ascii.eqb c LF then [c] :: readlines t
      else match readlines t with
           | l :: ls => (c :: l) :: ls
           | [] => [[c]]
           end
  end.

Definition str_eqb (a b : str) : bool :=
  if list_eq_dec ascii_dec a b then true else false.

(** The offset in the text of a position (row, column); rows count from 1. *)
Definition offset (lines : list str) (position : Z * Z) : nat :=
  length (concat (firstn (Z.to_nat (fst position - 1)) lines))
  + Z.to_nat (snd position).

(** The text of a token is found in the source between its two positions. *)
Definition token_at (source : str) (t : token) : bool :=
  let lines := readlines source in
  (1 <=? fst (tok_start t))%Z && (0 <=? snd (tok_start t))%Z
  && (1 <=? fst (tok_end t))%Z && (0 <=? snd (tok_end t))%Z
  && str_eqb (firstn (length (tok_string t))
                (skipn (offset lines (tok_start t)) source))
             (tok_string t)
  && (offset lines (tok_end t)
      =? offset lines (tok_start t) + length (tok_string t)).

Definition tokens_in (source : str) (tokens : list token) : bool :=
  forallb (token_at source) tokens.

(** Whitespace without a line break, as the text of an indentation token. *)
Definition indentation_like (s : str) : bool :=
  forallb (fun c => isspace c && negb (Ascii.eqb c LF)) s.

(** Every docstring of the stream comes back from [format_docstring] as it
    is. *)
Fixpoint docstrings_fixed (previous_type : option token_type)
    (previous_string : str) (tokens : list token) : Prop :=
  match tokens with
  | [] => True
  | t :: rest =>
      (is_docstring previous_type t = true ->
       format_docstring previous_string (tok_string t) = Ok (tok_string t))
      /\ docstrings_fixed (Some (tok_type t)) (tok_string t) rest
  end.

(** Every indentation token holds whitespace without a line break. *)
Definition indent_tokens_blank (tokens : list token) : bool :=
  forallb (fun t => negb (token_type_eqb (tok_type t) INDENT)
                    || indentation_like (tok_string t)) tokens.

(** The second stream is the first one tokenized again after a pass of
    [format_code]: token for token the same type, the text that the pass
    emitted for the token (the result of [format_docstring] for a docstring,
    its own text otherwise), and the same spaces before it.  The cursors are
    the end of the previous token in each stream. *)
Fixpoint retokenized (previous_type : option token_type)
    (previous_string : str) (row column row' column' : Z)
    (tokens tokens' : list token) : Prop :=
  match tokens, tokens' with
  | [], [] => True
  | t :: rest, t' :: rest' =>
      tok_type t' = tok_type t
      /\ (if is_docstring previous_type t
          then format_docstring previous_string (tok_string t)
               = Ok (tok_string t')
          else tok_string t' = tok_string t)
      /\ gap row' column' t' = gap row column t
      /\ retokenized (Some (tok_type t)) (tok_string t)
           (fst (tok_end t)) (snd (tok_end t))
           (fst (tok_end t')) (snd (tok_end t')) rest rest'
  | _, _ => False
  end.

(** A description line as the formatter leaves it: the indentation goes
    before a line with no leading whitespace, and trailing whitespace goes. *)
Definition reindented (indentation line : str) : str :=
  rstrip (if no_leading_space line then indentation ++ line else line).



(** Every string token that opens with three single quotes closes with
    them, as the tokens of [tokenize] do. *)
Definition closed_strings (tokens : list token) : Prop :=
  Forall (fun t =>
            startswith (lstrip (tok_string t)) triple_single = true ->
            endswith (rstrip (tok_string t)) triple_single = true) tokens.

(** No token of the stream is an indentation token. *)
Definition no_indent (tokens : list token) : bool :=
  forallb (fun t => negb (token_type_eqb (tok_type t) INDENT)) tokens.

(** [sep] occurs in [s]. *)
Definition occurs (sep s : str) : Prop := exists a b, s = a ++ sep ++ b.

(** The characters of [s] that are not whitespace, in order. *)
Definition solid (s : str) : str := filter (fun c => negb (isspace c)) s.

End Notions.

Import Notions.

(** ** Sample texts and the tokens [tokenize.generate_tokens] yields for them *)

Module Samples.

Definition tok (ty : token_type) (s : str) (r c r' c' : Z) : token :=
  Token ty s (r, c) (r', c').

Definition def_f : list token :=
  [ tok NAME (lit "def") 1 0 1 3; tok NAME (lit "f") 1 4 1 5;
    tok OP (lit "(") 1 5 1 6; tok OP (lit ")") 1 6 1 7;
    tok OP (lit ":") 1 7 1 8; tok NEWLINE [LF] 1 8 1 9 ].

(** An assignment spaced with blanks. *)
Definition assign_source : str := lit "x = 1" ++ [LF].

Definition assign_tokens : list token :=
  [ tok NAME (lit "x") 1 0 1 1; tok OP (lit "=") 1 2 1 3;
    tok NUMBER (lit "1") 1 4 1 5; tok NEWLINE [LF] 1 5 1 6;
    tok ENDMARKER [] 2 0 2 0 ].

(** The same assignment with a tab after [x]; columns count characters, so
    the tokens are the same. *)
Definition tab_source : str := lit "x" ++ [TAB] ++ lit "= 1" ++ [LF].

Definition tab_tokens : list token := assign_tokens.

(** A function whose body is a docstring in single quotes. *)
Definition single_quoted : str :=
  triple_single ++ lit "doc. more" ++ triple_single.

Definition single_source : str :=
  lit "def f():" ++ [LF] ++ lit "    " ++ single_quoted ++ [LF].

Definition single_tokens : list token :=
  def_f ++
  [ tok INDENT (lit "    ") 2 0 2 4; tok STRING single_quoted 2 4 2 19;
    tok NEWLINE [LF] 2 19 2 20; tok DEDENT [] 3 0 3 0;
    tok ENDMARKER [] 3 0 3 0 ].

(** A function whose body is an empty docstring followed by a string. *)
Definition blank_doc : str := triple_double ++ lit " " ++ triple_double.
Definition second_doc : str := triple_double ++ lit "a. b" ++ triple_double.

Definition two_strings_source : str :=
  lit "def f():" ++ [LF] ++ lit "    " ++ blank_doc ++ [LF]
  ++ lit "    " ++ second_doc ++ [LF].

Definition two_strings_tokens : list token :=
  def_f ++
  [ tok INDENT (lit "    ") 2 0 2 4; tok STRING blank_doc 2 4 2 11;
    tok NEWLINE [LF] 2 11 2 12; tok STRING second_doc 3 4 3 14;
    tok NEWLINE [LF] 3 14 3 15; tok DEDENT [] 4 0 4 0;
    tok ENDMARKER [] 4 0 4 0 ].

(** The output of the first pass over [two_strings_source]. *)
Definition first_pass : str :=
  lit "def f():" ++ [LF] ++ lit "    " ++ [LF]
  ++ lit "    " ++ second_doc ++ [LF].

Definition first_pass_tokens : list token :=
  def_f ++
  [ tok NL [LF] 2 4 2 5; tok INDENT (lit "    ") 3 0 3 4;
    tok STRING second_doc 3 4 3 14; tok NEWLINE [LF] 3 14 3 15;
    tok DEDENT [] 4 0 4 0; tok ENDMARKER [] 4 0 4 0 ].

(** The output of the second pass. *)
Definition formatted_doc : str :=
  triple_double ++ lit "a." ++ [LF; LF] ++ lit "    b" ++ [LF; LF]
  ++ lit "    " ++ triple_double.

Definition second_pass : str :=
  lit "def f():" ++ [LF] ++ lit "    " ++ [LF]
  ++ lit "    " ++ formatted_doc ++ [LF].

Definition second_pass_tokens : list token :=
  def_f ++
  [ tok NL [LF] 2 4 2 5; tok INDENT (lit "    ") 3 0 3 4;
    tok STRING formatted_doc 3 4 7 7; tok NEWLINE [LF] 7 7 7 8;
    tok DEDENT [] 8 0 8 0; tok ENDMARKER [] 8 0 8 0 ].

(** [tokenize.generate_tokens] on the sample texts. *)
Definition sample_tokens (source : str) : result (list token) :=
  if str_eqb source assign_source then Ok assign_tokens
  else if str_eqb source tab_source then Ok tab_tokens
  else if str_eqb source single_source then Ok single_tokens
  else if str_eqb source two_strings_source then Ok two_strings_tokens
  else if str_eqb source first_pass then Ok first_pass_tokens
  else if str_eqb source second_pass then Ok second_pass_tokens
  else Raise TokenError.

(** A module that starts with its docstring. *)
Definition module_doc : str := triple_double ++ lit "Doc. More" ++ triple_double.

Definition module_tokens : list token :=
  [ tok STRING module_doc 1 0 1 15; tok NEWLINE [LF] 1 15 1 16;
    tok ENDMARKER [] 2 0 2 0 ].

End Samples.

Import Samples.

(** ** The entry point *)

Module Main.

(** The namespace [parser.parse_args()] returns. *)
Record arguments := Arguments {
  in_place : bool;
  backup : bool;
  files : list str
}.

(** What [main] acts on: for each file name the text that [read()] returns,
    if the file can be opened, and the text written to [sys.stdout]. *)
Record world := World {
  file : str -> option str;
  stdout : str
}.

(** What stops [main]: [open(filename)] raises, [format_code] does, or
    [open(filename, 'w')] does. *)
Inductive failure :=
| CannotOpen (filename : str)
| FormatFailed (e : exn)
| CannotWrite (filename : str).

Section Program.

(** [tokenize.generate_tokens] and [difflib.unified_diff] belong to the
    Python library.  [reread text] is the text a later [read()] returns for
    a file that [write(text)] filled.  [writable name] tells whether
    [open(name, 'w')] succeeds; it raises on a read-only file or
    directory. *)
Variable generate_tokens : str -> result (list token).
Variable unified_diff : list str -> list str -> str -> str -> list str.
Variable reread : str -> str.
Variable writable : str -> bool.

(** [with open(name, 'w') as f: f.write(text)]; nothing is returned when
    the file cannot be opened for writing, and the world is then as it
    was. *)
Definition write_file (w : world) (name text : str) : option world :=
  if writable name then
    Some (World (fun n => if str_eqb n name then Some (reread text)
                          else file w n)
                (stdout w))
  else None.

(** [sys.stdout.write(text)] *)
Definition stdout_write (w : world) (text : str) : world :=
  World (file w) (stdout w ++ text).

(** The body of the loop of [main], lines 131-148. *)
Definition process (args : arguments) (w : world) (filename : str)
  : world * option failure :=
  match file w filename with
  | None => (w, Some (CannotOpen filename))
  | Some source =>
      match format_code generate_tokens source with
      | Raise e => (w, Some (FormatFailed e))
      | Ok formatted_source =>
          if in_place args then
            match (if backup args
                   then write_file w (filename ++ lit ".backup") source
                   else Some w) with
            | None => (w, Some (CannotWrite (filename ++ lit ".backup")))
            | Some w1 =>
                match write_file w1 filename formatted_source with
                | None => (w1, Some (CannotWrite filename))
                | Some w2 => (w2, None)
                end
            end
          else
            let diff :=
              unified_diff (Py.split LF source) (Py.split LF formatted_source)
                (lit "before/" ++ filename) (lit "after/" ++ filename) in
            (stdout_write w (join [LF] diff), None)
      end
  end.

(** The loop of line 130: an exception leaves the loop. *)
Fixpoint process_all (args : arguments) (w : world) (filenames : list str)
  : world * option failure :=
  match filenames with
  | [] => (w, None)
  | filename :: rest =>
      match process args w filename with
      | (w', None) => process_all args w' rest
      | (w', Some e) => (w', Some e)
      end
  end.

(** [main], lines 117-148, once the command line is parsed. *)
Definition main (args : arguments) (w : world) : world * option failure :=
  process_all args w (files args).

End Program.

End Main.

(** ** A sample run of the entry point *)

Module Run.

Import Main.

(** Two files, [a.py] and [b.py]. *)
Definition sample_world : world :=
  World (fun n =>
           if str_eqb n (lit "a.py") then Some two_strings_source
           else if str_eqb n (lit "b.py") then Some assign_source
           else None)
        [].

(** A stand-in for [difflib.unified_diff] that yields no line. *)
Definition no_diff (a b : list str) (fromfile tofile : str) : list str := [].

Definition same (text : str) : str := text.

(** Every file can be opened for writing. *)
Definition all_writable (name : str) : bool := true.

(** Every file but [locked] can be opened for writing. *)
Definition all_but (locked name : str) : bool := negb (str_eqb name locked).

Definition rewrite_with_backup (names : list str) : arguments :=
  Arguments true true names.

Definition show_diff (names : list str) : arguments :=
  Arguments false true names.

End Run.

(** ** Facts about the string primitives *)

Section StringFacts.

Lemma lstrip_no_leading (s : str) :
  no_leading_space s = true -> lstrip s = s.
Proof.
  destruct s as [|c t]; simpl; [reflexivity|].
  destruct (isspace c); simpl; [discriminate | reflexivity].
Qed.

Lemma no_leading_lstrip (s : str) : no_leading_space (lstrip s) = true.
Proof.
  induction s as [|c t IH]; simpl; [reflexivity|].
  destruct (isspace c) eqn:E; [exact IH | simpl; now rewrite E].
Qed.

Lemma lstrip_fixed (s : str) :
  lstrip s = s -> no_leading_space s = true.
Proof. intros H. rewrite <- H. apply no_leading_lstrip. Qed.

Lemma lstrip_all_space (w s : str) :
  all_space w = true -> lstrip (w ++ s) = lstrip s.
Proof.
  induction w as [|c w IH]; simpl; [reflexivity|].
  intros H. apply andb_true_iff in H as [Hc Hw]. now rewrite Hc, IH.
Qed.

Lemma lstrip_app_no_leading (a b : str) :
  truthy a = true -> no_leading_space a = true -> lstrip (a ++ b) = a ++ b.
Proof.
  destruct a as [|c a]; simpl; [discriminate|].
  intros _ H. destruct (isspace c); [discriminate | reflexivity].
Qed.

Lemma all_space_rev (w : str) : all_space (rev w) = all_space w.
Proof.
  unfold all_space. induction w as [|c w IH]; simpl; [reflexivity|].
  rewrite forallb_app, IH. simpl. rewrite andb_true_r. apply andb_comm.
Qed.

Lemma rstrip_no_trailing (s : str) :
  no_trailing_space s = true -> rstrip s = s.
Proof.
  unfold no_trailing_space, rstrip. intros H.
  rewrite lstrip_no_leading by exact H. apply rev_involutive.
Qed.

Lemma no_trailing_rstrip (s : str) : no_trailing_space (rstrip s) = true.
Proof.
  unfold no_trailing_space, rstrip. rewrite rev_involutive.
  apply no_leading_lstrip.
Qed.

Lemma rstrip_idem (s : str) : rstrip (rstrip s) = rstrip s.
Proof. apply rstrip_no_trailing, no_trailing_rstrip. Qed.

Lemma rstrip_all_space (s w : str) :
  all_space w = true -> rstrip (s ++ w) = rstrip s.
Proof.
  intros H. unfold rstrip. rewrite rev_app_distr, lstrip_all_space; auto.
  now rewrite all_space_rev.
Qed.

Lemma rstrip_app_no_trailing (a b : str) :
  truthy b = true -> no_trailing_space b = true -> rstrip (a ++ b) = a ++ b.
Proof.
  intros Hb Hn. unfold rstrip. rewrite rev_app_distr.
  rewrite lstrip_app_no_leading.
  - now rewrite <- rev_app_distr, rev_involutive.
  - destruct b as [|c b]; [discriminate|]. simpl.
    destruct (rev b); reflexivity.
  - exact Hn.
Qed.

Lemma startswith_app (p s : str) : startswith (p ++ s) p = true.
Proof.
  induction p as [|c p IH]; simpl; [now destruct s|].
  now rewrite Ascii.eqb_refl, IH.
Qed.

Lemma startswith_head (c d : ascii) (s p : str) :
  c <> d -> startswith (c :: s) (d :: p) = false.
Proof.
  intros H. simpl. destruct (Ascii.eqb_spec c d); [contradiction | reflexivity].
Qed.

Lemma startswith_cons (d c : ascii) (s p : str) :
  startswith (d :: s) (c :: p) = Ascii.eqb d c && startswith s p.
Proof. reflexivity. Qed.

Lemma startswith_spec (s p : str) :
  startswith s p = true <-> exists r, s = p ++ r.
Proof.
  revert s. induction p as [|c p IH]; intros s.
  - split; [intros _; now exists s | now destruct s].
  - destruct s as [|d s].
    + split; [discriminate | intros [r H]; discriminate].
    + rewrite startswith_cons, andb_true_iff, IH. split.
      * intros [E [r ->]]. apply Ascii.eqb_eq in E. subst. now exists r.
      * intros [r H]. injection H as -> ->. split; [apply Ascii.eqb_refl|].
        now exists r.
Qed.

Lemma skipn_length_app (p s : str) : skipn (length p) (p ++ s) = s.
Proof. induction p; simpl; auto. Qed.

Lemma partition_unfold (sep s : str) :
  partition sep s =
  if startswith s sep then Some ([], skipn (length sep) s)
  else match s with
       | [] => None
       | c :: t =>
           match partition sep t with
           | Some (a, b) => Some (c :: a, b)
           | None => None
           end
       end.
Proof. destruct s; reflexivity. Qed.

Lemma partition_here (sep s : str) :
  partition sep (sep ++ s) = Some ([], s).
Proof.
  rewrite partition_unfold, startswith_app. now rewrite skipn_length_app.
Qed.

(** The separator is found after a prefix that holds none of its first
    character. *)
Lemma partition_skip (d : ascii) (sep w s : str) :
  Forall (fun c => c <> d) w ->
  partition (d :: sep) (w ++ (d :: sep) ++ s) = Some (w, s).
Proof.
  induction 1 as [|c w Hc Hw IH].
  - exact (partition_here (d :: sep) s).
  - change ((c :: w) ++ (d :: sep) ++ s) with (c :: (w ++ (d :: sep) ++ s)).
    rewrite partition_unfold, startswith_head by exact Hc. now rewrite IH.
Qed.

Lemma all_space_not (d : ascii) (w : str) :
  isspace d = false -> all_space w = true -> Forall (fun c => c <> d) w.
Proof.
  intros Hd. induction w as [|c w IH]; simpl; intros H; constructor.
  - apply andb_true_iff in H as [Hc _]. intros ->. congruence.
  - apply andb_true_iff in H as [_ Hw]. auto.
Qed.

End StringFacts.

(** ** Delimiters: [strip_docstring] *)

Section Delimiters.

Lemma index_split1_delimited (q : ascii) (ws rest : str) :
  isspace q = false -> all_space ws = true ->
  index (Py.split1 [q; q; q] (ws ++ [q; q; q] ++ rest)) 1 = Ok rest.
Proof.
  intros Hq Hws. unfold Py.split1.
  rewrite (partition_skip q [q; q] ws rest (all_space_not q ws Hq Hws)).
  reflexivity.
Qed.

Lemma index_rsplit1_delimited (q : ascii) (m ws : str) :
  isspace q = false -> all_space ws = true ->
  index (rsplit1 [q; q; q] (m ++ [q; q; q] ++ ws)) 0 = Ok m.
Proof.
  intros Hq Hws. unfold rsplit1.
  rewrite !rev_app_distr, <- app_assoc.
  change (rev [q; q; q]) with [q; q; q].
  rewrite (partition_skip q [q; q] (rev ws) (rev m)).
  - simpl. now rewrite rev_involutive.
  - apply all_space_not; [exact Hq | now rewrite all_space_rev].
Qed.

Lemma endswith_app (s p : str) : endswith (s ++ p) p = true.
Proof. unfold endswith. rewrite rev_app_distr. apply startswith_app. Qed.

Lemma lstrip_triple_double (s : str) :
  lstrip (triple_double ++ s) = triple_double ++ s.
Proof. reflexivity. Qed.

Lemma lstrip_triple_single (s : str) :
  lstrip (triple_single ++ s) = triple_single ++ s.
Proof. reflexivity. Qed.

Lemma startswith_double_single (s : str) :
  startswith (triple_double ++ s) triple_single = false.
Proof. reflexivity. Qed.

(** A docstring framed by the same delimiter on both sides. *)
Lemma strip_docstring_delimited (t ws m ws' : str) :
  t = triple_double \/ t = triple_single ->
  all_space ws = true -> all_space ws' = true ->
  strip_docstring (ws ++ t ++ m ++ t ++ ws') = Ok (strip m).
Proof.
  intros Ht Hws Hws'. unfold strip_docstring.
  rewrite lstrip_all_space by exact Hws.
  destruct Ht as [-> | ->].
  - rewrite lstrip_triple_double, startswith_double_single. cbn [bind].
    unfold triple_double.
    rewrite index_split1_delimited by (reflexivity || assumption). cbn [bind].
    rewrite index_rsplit1_delimited by (reflexivity || assumption).
    reflexivity.
  - rewrite lstrip_triple_single, startswith_app.
    replace (ws ++ triple_single ++ m ++ triple_single ++ ws')
      with (((ws ++ triple_single ++ m) ++ triple_single) ++ ws')
      by now rewrite <- !app_assoc.
    rewrite rstrip_all_space by exact Hws'.
    rewrite rstrip_app_no_trailing by reflexivity.
    rewrite endswith_app. cbn [assert bind].
    rewrite <- !app_assoc. unfold triple_single.
    rewrite index_split1_delimited by (reflexivity || assumption). cbn [bind].
    rewrite index_rsplit1_delimited by (reflexivity || assumption).
    reflexivity.
Qed.

Lemma strip_docstring_assert (d : str) :
  startswith (lstrip d) triple_single = true ->
  endswith (rstrip d) triple_single = false ->
  strip_docstring d = Raise AssertionError.
Proof. intros H1 H2. unfold strip_docstring. now rewrite H1, H2. Qed.

Lemma strip_docstring_unchecked (d : str) :
  startswith (lstrip d) triple_single = false ->
  strip_docstring d <> Raise AssertionError.
Proof.
  intros H. unfold strip_docstring. rewrite H. cbn [bind].
  destruct (index (Py.split1 triple_double d) 1) as [a|e] eqn:E1; cbn [bind].
  - destruct (index (rsplit1 triple_double a) 0) as [b|e] eqn:E2; cbn [bind].
    + discriminate.
    + unfold index in E2. destruct nth_error; inversion E2. discriminate.
  - unfold index in E1. destruct nth_error; inversion E1. discriminate.
Qed.

End Delimiters.

(** ** The shape of a formatted docstring *)

Section Shape.

Lemma indent_non_indented_reindented (indentation line : str) :
  rstrip (indent_non_indented line indentation) = reindented indentation line.
Proof.
  unfold indent_non_indented, reindented.
  destruct (list_eq_dec ascii_dec (lstrip line) line) as [E|E].
  - apply lstrip_fixed in E. now rewrite E.
  - destruct (no_leading_space line) eqn:N; [|reflexivity].
    apply lstrip_no_leading in N. contradiction.
Qed.

Lemma truthy_true (s : str) : s <> [] -> truthy s = true.
Proof. destruct s; [contradiction | reflexivity]. Qed.

(** C9: a docstring whose contents are empty once the delimiters and the
    surrounding whitespace are stripped is formatted to the empty string. *)
Theorem C9_empty_contents (indentation docstring : str) :
  strip_docstring docstring = Ok [] ->
  format_docstring indentation docstring = Ok [].
Proof. intros H. unfold format_docstring. now rewrite H. Qed.

Lemma C9_empty_contents_witness :
  strip_docstring blank_doc = Ok []
  /\ format_docstring (lit "    ") blank_doc = Ok [].
Proof.
  split; [reflexivity | apply (C9_empty_contents (lit "    ") blank_doc)].
  reflexivity.
Defined.

Lemma format_docstring_plain (indentation docstring contents : str) :
  strip_docstring docstring = Ok contents ->
  contents <> [] ->
  snd (split_summary_and_description contents) = [] ->
  format_docstring indentation docstring
  = Ok (triple_double ++ contents ++ triple_double).
Proof.
  intros H Hc Hd. unfold format_docstring. rewrite H. cbn [bind].
  rewrite (truthy_true contents Hc). cbn [negb].
  destruct (split_summary_and_description contents) as [summary description].
  simpl in Hd. now rewrite Hd.
Qed.

(** C8: when the description is empty, the result is the opening quotes,
    the stripped contents as they are and the closing quotes; the summary is
    not normalized. *)
Theorem C8_empty_description (indentation docstring contents : str) :
  strip_docstring docstring = Ok contents ->
  contents <> [] ->
  snd (split_summary_and_description contents) = [] ->
  format_docstring indentation docstring
  = Ok (triple_double ++ contents ++ triple_double).
Proof. apply format_docstring_plain. Qed.

(** The docstring that holds [Just this.] comes back unchanged. *)
Lemma C8_empty_description_witness :
  let just_this := triple_double ++ lit "Just this." ++ triple_double in
  (strip_docstring just_this = Ok (lit "Just this.")
   /\ lit "Just this." <> []
   /\ snd (split_summary_and_description (lit "Just this.")) = [])
  /\ format_docstring (lit "    ") just_this = Ok just_this.
Proof.
  assert (H1 : strip_docstring (triple_double ++ lit "Just this." ++ triple_double)
               = Ok (lit "Just this.")) by reflexivity.
  assert (H2 : lit "Just this." <> []) by discriminate.
  assert (H3 : snd (split_summary_and_description (lit "Just this.")) = [])
    by reflexivity.
  split; [now repeat split|].
  exact (C8_empty_description (lit "    ") _ _ H1 H2 H3).
Defined.

Lemma format_docstring_described
    (indentation docstring contents summary description : str) :
  strip_docstring docstring = Ok contents ->
  contents <> [] ->
  split_summary_and_description contents = (summary, description) ->
  description <> [] ->
  format_docstring indentation docstring
  = Ok (triple_double ++ normalize_summary summary ++ [LF; LF]
        ++ join [LF] (map (reindented indentation) (Py.split LF description))
        ++ [LF; LF] ++ indentation ++ triple_double).
Proof.
  intros H Hc Hs Hd. unfold format_docstring. rewrite H. cbn [bind].
  rewrite (truthy_true contents Hc). cbn [negb]. rewrite Hs.
  rewrite (truthy_true description Hd).
  rewrite (map_ext _ (reindented indentation))
    by (intros l; apply indent_non_indented_reindented).
  reflexivity.
Qed.

(** C7: with a non-empty description the result is the opening quotes, the
    normalized summary, a blank line, the description lines re-indented and
    right-trimmed, a blank line, the indentation and the closing quotes. *)
Theorem C7_with_description
    (indentation docstring contents summary description : str) :
  strip_docstring docstring = Ok contents ->
  contents <> [] ->
  split_summary_and_description contents = (summary, description) ->
  description <> [] ->
  format_docstring indentation docstring
  = Ok (triple_double ++ normalize_summary summary ++ [LF; LF]
        ++ join [LF] (map (reindented indentation) (Py.split LF description))
        ++ [LF; LF] ++ indentation ++ triple_double).
Proof. apply format_docstring_described. Qed.

Lemma C7_with_description_witness :
  let doc := triple_double ++ lit "Return x." ++ [LF; LF]
             ++ lit "More info here." ++ [LF] ++ triple_double in
  format_docstring (lit "    ") doc
  = Ok (triple_double ++ lit "Return x." ++ [LF; LF]
        ++ lit "    More info here." ++ [LF; LF] ++ lit "    "
        ++ triple_double).
Proof.
  refine (C7_with_description (lit "    ") _
            (lit "Return x." ++ [LF; LF] ++ lit "More info here.")
            (lit "Return x.") (lit "More info here.") _ _ _ _).
  - reflexivity.
  - discriminate.
  - reflexivity.
  - discriminate.
Defined.

End Shape.

(** ** The check of the closing delimiter *)

Section DelimiterCheck.

Lemma format_docstring_raises (indentation d : str) (e : exn) :
  format_docstring indentation d = Raise e <-> strip_docstring d = Raise e.
Proof.
  unfold format_docstring. destruct (strip_docstring d) as [c|e']; cbn [bind].
  - destruct (negb (truthy c)); [split; discriminate|].
    destruct (split_summary_and_description c) as [sm ds].
    destruct (truthy ds); split; discriminate.
  - reflexivity.
Qed.

(** C6, as the code has it: the assertion is made only for a docstring that
    opens with three single quotes, and fails when it does not close with
    them; a docstring that does not open with three single quotes is never
    checked; with the same delimiter on both sides the contents are the text
    between the first opening and the last closing delimiter, trimmed. *)
Theorem C6_delimiters (docstring : str) :
  (startswith (lstrip docstring) triple_single = true ->
   endswith (rstrip docstring) triple_single = false ->
   forall indentation,
     format_docstring indentation docstring = Raise AssertionError)
  /\ (startswith (lstrip docstring) triple_single = false ->
      forall indentation,
        format_docstring indentation docstring <> Raise AssertionError)
  /\ (forall t ws m ws',
        t = triple_double \/ t = triple_single ->
        all_space ws = true -> all_space ws' = true ->
        docstring = ws ++ t ++ m ++ t ++ ws' ->
        strip_docstring docstring = Ok (strip m)).
Proof.
  split; [|split].
  - intros H1 H2 ind. apply format_docstring_raises.
    now apply strip_docstring_assert.
  - intros H ind E. apply format_docstring_raises in E.
    now apply strip_docstring_unchecked in E.
  - intros t ws m ws' Ht Hws Hws' ->. now apply strip_docstring_delimited.
Qed.

Lemma C6_delimiters_witness :
  format_docstring (lit "    ") (triple_single ++ lit "abc" ++ triple_double)
  = Raise AssertionError
  /\ format_docstring (lit "    ")
       (triple_double ++ lit "abc" ++ triple_double)
     <> Raise AssertionError
  /\ strip_docstring
       (lit " " ++ triple_single ++ lit " abc " ++ triple_single ++ [LF])
     = Ok (lit "abc").
Proof.
  split; [|split].
  - apply (proj1 (C6_delimiters _)); reflexivity.
  - apply (proj1 (proj2 (C6_delimiters _))); reflexivity.
  - apply (proj2 (proj2 (C6_delimiters _))
             triple_single (lit " ") (lit " abc ") [LF]).
    + now right.
    + reflexivity.
    + reflexivity.
    + reflexivity.
Defined.

(** A docstring that opens with three double quotes and closes with three
    single quotes raises nothing. *)
Lemma C6_counterexample :
  let docstring := triple_double ++ lit "abc" ++ triple_single in
  startswith (lstrip docstring) triple_double = true
  /\ endswith (rstrip docstring) triple_single = true
  /\ format_docstring (lit "    ") docstring
     = Ok (triple_double ++ lit "abc" ++ triple_single ++ triple_double)
  /\ format_docstring (lit "    ") docstring <> Raise AssertionError.
Proof. repeat split. discriminate. Qed.

End DelimiterCheck.

(** ** Lines: [split] and [join] on the line break *)

Section Lines.

Variable sep : ascii.

Lemma split_not_nil (s : str) : Py.split sep s <> [].
Proof.
  destruct s as [|c t]; simpl; [discriminate|].
  destruct (Ascii.eqb c sep); [discriminate|].
  destruct (Py.split sep t); discriminate.
Qed.

Lemma split_cons_sep (t : str) : Py.split sep (sep :: t) = [] :: Py.split sep t.
Proof. simpl. now rewrite Ascii.eqb_refl. Qed.

Lemma split_cons_other (c : ascii) (t : str) :
  c <> sep ->
  exists l ls, Py.split sep t = l :: ls /\ Py.split sep (c :: t) = (c :: l) :: ls.
Proof.
  intros H. simpl. destruct (Ascii.eqb_spec c sep); [contradiction|].
  destruct (Py.split sep t) as [|l ls] eqn:E.
  - now apply split_not_nil in E.
  - now exists l, ls.
Qed.

Lemma split_no_sep (s : str) : ~ In sep s -> Py.split sep s = [s].
Proof.
  induction s as [|c t IH]; intros H; [reflexivity|].
  destruct (split_cons_other c t) as (l & ls & E1 & E2).
  - intros ->. apply H. now left.
  - rewrite E2. rewrite IH in E1 by (intros Hin; apply H; now right).
    now injection E1 as <- <-.
Qed.

Lemma split_app (a b : str) :
  ~ In sep a -> Py.split sep (a ++ sep :: b) = a :: Py.split sep b.
Proof.
  induction a as [|c t IH]; intros H.
  - apply split_cons_sep.
  - change ((c :: t) ++ sep :: b) with (c :: (t ++ sep :: b)).
    destruct (split_cons_other c (t ++ sep :: b)) as (l & ls & E1 & E2).
    + intros ->. apply H. now left.
    + rewrite E2. rewrite IH in E1 by (intros Hin; apply H; now right).
      now injection E1 as <- <-.
Qed.

Lemma join_cons (x y : str) (rest : list str) :
  join [sep] (x :: y :: rest) = x ++ sep :: join [sep] (y :: rest).
Proof. reflexivity. Qed.

Lemma join_split (s : str) : join [sep] (Py.split sep s) = s.
Proof.
  induction s as [|c t IH]; [reflexivity|].
  destruct (Ascii.eqb_spec c sep) as [->|Hc].
  - rewrite split_cons_sep.
    destruct (Py.split sep t) as [|l ls] eqn:E;
      [now apply split_not_nil in E|].
    rewrite join_cons. cbn [app]. now rewrite IH.
  - destruct (split_cons_other c t Hc) as (l & ls & E1 & E2).
    rewrite E2. rewrite E1 in IH. destruct ls as [|l' ls].
    + cbn [join] in *. now rewrite IH.
    + rewrite join_cons in *. cbn [app]. now rewrite IH.
Qed.

Lemma split_lines_no_sep (s : str) :
  Forall (fun l => ~ In sep l) (Py.split sep s).
Proof.
  induction s as [|c t IH]; [repeat constructor; auto|].
  destruct (Ascii.eqb_spec c sep) as [->|Hc].
  - rewrite split_cons_sep. constructor; auto.
  - destruct (split_cons_other c t Hc) as (l & ls & E1 & E2).
    rewrite E2. rewrite E1 in IH. inversion IH; subst.
    constructor; [|assumption]. intros [->|Hin]; auto.
Qed.

Lemma split_join (ls : list str) :
  ls <> [] -> Forall (fun l => ~ In sep l) ls ->
  Py.split sep (join [sep] ls) = ls.
Proof.
  induction ls as [|x rest IH]; [contradiction|]. intros _ H.
  inversion H as [|? ? Hx Hrest]; subst.
  destruct rest as [|y rest].
  - simpl. now apply split_no_sep.
  - rewrite join_cons, split_app by exact Hx.
    rewrite IH; [reflexivity | discriminate | exact Hrest].
Qed.

End Lines.

(** ** Blank strings *)

Section Blank.

Lemma lstrip_nil_iff (s : str) : lstrip s = [] <-> all_space s = true.
Proof.
  induction s as [|c t IH]; simpl; [tauto|].
  destruct (isspace c); simpl; [exact IH|]. split; discriminate.
Qed.

Lemma rev_nil_iff (s : str) : rev s = [] <-> s = [].
Proof.
  split; [|now intros ->]. intros H.
  apply (f_equal (@rev ascii)) in H. now rewrite rev_involutive in H.
Qed.

Lemma rstrip_nil_iff (s : str) : rstrip s = [] <-> all_space s = true.
Proof.
  unfold rstrip. rewrite rev_nil_iff, lstrip_nil_iff. now rewrite all_space_rev.
Qed.

Lemma all_space_lstrip (s : str) :
  all_space (lstrip s) = true <-> all_space s = true.
Proof.
  induction s as [|c t IH]; simpl; [tauto|].
  destruct (isspace c) eqn:E; simpl; [exact IH | now rewrite E].
Qed.

Lemma strip_nil_iff (s : str) : strip s = [] <-> all_space s = true.
Proof. unfold strip. now rewrite rstrip_nil_iff, all_space_lstrip. Qed.

Lemma truthy_strip (s : str) : negb (truthy (strip s)) = all_space s.
Proof.
  destruct (all_space s) eqn:E.
  - apply strip_nil_iff in E. now rewrite E.
  - destruct (strip s) eqn:S; [|reflexivity].
    apply strip_nil_iff in S. congruence.
Qed.

End Blank.

(** ** The pattern of a period and a whitespace character *)

Section PeriodSpace.

Lemma match_period_space (s : str) :
  Re.match_prefix period_space s =
  match s with
  | c :: d :: u => if Ascii.eqb c DOT && isspace d then Some u else None
  | _ => None
  end.
Proof.
  destruct s as [|c [|d u]]; cbn -[isspace Ascii.eqb]; try reflexivity.
  - now destruct (Ascii.eqb c DOT).
  - now destruct (Ascii.eqb c DOT), (isspace d).
Qed.

Lemma search_unfold (r : Re.regex) (s : str) :
  Re.search r s =
  match Re.match_prefix r s with
  | Some rest => Some ([], rest)
  | None =>
      match s with
      | [] => None
      | c :: t =>
          match Re.search r t with
          | Some (a, b) => Some (c :: a, b)
          | None => None
          end
      end
  end.
Proof. destruct s; reflexivity. Qed.

(** The search stops at the first period that a whitespace character
    follows. *)
Lemma search_period_space_first (a b : str) (c : ascii) :
  has_period_space a = false -> isspace c = true ->
  Re.search period_space (a ++ DOT :: c :: b) = Some (a, b).
Proof.
  intros Ha Hc. induction a as [|x a IH].
  - rewrite search_unfold, match_period_space. cbn [app].
    now rewrite Ascii.eqb_refl, Hc.
  - cbn [has_period_space] in Ha. apply orb_false_iff in Ha as [Hx Ha].
    change ((x :: a) ++ DOT :: c :: b) with (x :: (a ++ DOT :: c :: b)).
    rewrite search_unfold, match_period_space, (IH Ha).
    destruct a as [|y a]; cbn [app].
    + destruct (Ascii.eqb x DOT); reflexivity.
    + now rewrite Hx.
Qed.

Lemma search_period_space_none (s : str) :
  has_period_space s = false -> Re.search period_space s = None.
Proof.
  induction s as [|x s IH]; intros H.
  - reflexivity.
  - cbn [has_period_space] in H. apply orb_false_iff in H as [Hx Hs].
    rewrite search_unfold, match_period_space, (IH Hs).
    destruct s as [|y s]; [reflexivity|]. now rewrite Hx.
Qed.

End PeriodSpace.

(** ** Summary and description *)

Section SummaryDescription.

Lemma blank_second_line_test (contents : str) :
  (1 <? length (Py.split LF contents))
  && negb (truthy (strip (nth 1 (Py.split LF contents) [])))
  = second_line_blank contents.
Proof.
  unfold second_line_blank.
  destruct (Py.split LF contents) as [|a [|b r]]; try reflexivity.
  cbn [length nth]. rewrite truthy_strip. reflexivity.
Qed.

Lemma split_blank_second_line (contents first second : str) (rest : list str) :
  Py.split LF contents = first :: second :: rest ->
  all_space second = true ->
  split_summary_and_description contents = (first, join [LF] rest).
Proof.
  intros E H. unfold split_summary_and_description.
  rewrite blank_second_line_test. unfold second_line_blank.
  rewrite E, H. reflexivity.
Qed.

Lemma split_at_period (contents a b : str) (c : ascii) :
  second_line_blank contents = false ->
  contents = a ++ DOT :: c :: b -> isspace c = true ->
  has_period_space a = false ->
  split_summary_and_description contents = (strip a ++ [DOT], strip b).
Proof.
  intros Hn -> Hc Ha. unfold split_summary_and_description.
  rewrite blank_second_line_test, Hn. unfold Re.split1.
  now rewrite search_period_space_first.
Qed.

Lemma split_no_period (contents : str) :
  second_line_blank contents = false ->
  has_period_space contents = false ->
  split_summary_and_description contents = (strip contents, []).
Proof.
  intros Hn Hp. unfold split_summary_and_description.
  rewrite blank_second_line_test, Hn. unfold Re.split1.
  now rewrite search_period_space_none.
Qed.

(** C5, as the code has it: with a blank second line the first line is the
    summary and the text after the second line break the description;
    otherwise the contents are cut at the first period that any whitespace
    character follows, both parts trimmed and the period put back; with no
    such period the trimmed contents are the summary and the description is
    empty. *)
Theorem C5_split_summary_and_description (contents : str) :
  (forall first second rest,
     Py.split LF contents = first :: second :: rest ->
     all_space second = true ->
     split_summary_and_description contents = (first, join [LF] rest)
     /\ (rest <> [] ->
         contents = first ++ LF :: second ++ LF :: join [LF] rest))
  /\ (second_line_blank contents = false ->
      forall a c b,
        contents = a ++ DOT :: c :: b -> isspace c = true ->
        has_period_space a = false ->
        split_summary_and_description contents
        = (strip a ++ [DOT], strip b))
  /\ (second_line_blank contents = false ->
      has_period_space contents = false ->
      split_summary_and_description contents = (strip contents, [])).
Proof.
  split; [|split].
  - intros first second rest E H. split.
    + now apply split_blank_second_line with second.
    + intros Hr. rewrite <- (join_split LF contents) at 1. rewrite E.
      destruct rest as [|y rest]; [contradiction|].
      now rewrite !join_cons.
  - intros Hn a c b. now apply split_at_period.
  - apply split_no_period.
Qed.

Lemma C5_split_summary_and_description_witness :
  split_summary_and_description
    (lit "Return x." ++ [LF; LF] ++ lit "More info here.")
  = (lit "Return x.", lit "More info here.")
  /\ split_summary_and_description (lit "does a thing. returns nothing")
     = (lit "does a thing.", lit "returns nothing")
  /\ split_summary_and_description (lit "Just this.")
     = (lit "Just this.", []).
Proof.
  split; [|split].
  - apply (proj1 (C5_split_summary_and_description _)
             (lit "Return x.") [] [lit "More info here."]); reflexivity.
  - refine (proj1 (proj2 (C5_split_summary_and_description
                           (lit "does a thing. returns nothing"))) _
             (lit "does a thing") SP (lit "returns nothing") _ _ _);
      reflexivity.
  - refine (proj2 (proj2 (C5_split_summary_and_description
                           (lit "Just this."))) _ _); reflexivity.
Defined.

(** A period followed by a line break cuts the contents, though no period
    followed by a space character occurs. *)
Lemma C5_counterexample :
  let contents := lit "a." ++ [LF] ++ lit "b" in
  second_line_blank contents = false
  /\ partition [DOT; SP] contents = None
  /\ split_summary_and_description contents = (lit "a.", lit "b")
  /\ split_summary_and_description contents <> (contents, []).
Proof. repeat split. discriminate. Qed.

End SummaryDescription.

(** ** The pattern of a whitespace run with a line break *)

Section NewlineRun.

Lemma star_space_all (t : str) : Re.star_k Re.Space Some t = Some (lstrip t).
Proof.
  induction t as [|c t IH]; [reflexivity|].
  cbn [Re.star_k Re.atom_matches lstrip]. rewrite IH.
  now destruct (isspace c).
Qed.

Lemma star_k_cons (a : Re.atom) (k : str -> option str) (c : ascii) (t : str) :
  Re.star_k a k (c :: t)
  = if Re.atom_matches a c then
      match Re.star_k a k t with
      | Some r => Some r
      | None => k (c :: t)
      end
    else k (c :: t).
Proof. reflexivity. Qed.

Lemma match_newline_run (s : str) :
  Re.match_prefix newline_run s
  = if newline_ahead s then Some (lstrip s) else None.
Proof.
  unfold Re.match_prefix, newline_run. cbn [Re.match_k].
  set (k := Re.match_k (Re.Seq (Re.Atom (Re.Lit LF)) (Re.Star Re.Space)) Some).
  assert (Hk : forall c t, k (c :: t)
               = if Ascii.eqb c LF then Some (lstrip t) else None).
  { intros c t. unfold k. cbn [Re.match_k Re.atom_matches].
    now rewrite star_space_all. }
  change (Re.star_k Re.Space k s
          = if newline_ahead s then Some (lstrip s) else None).
  induction s as [|c t IH]; [reflexivity|].
  rewrite star_k_cons, IH, Hk. cbn [Re.atom_matches newline_ahead lstrip].
  destruct (isspace c) eqn:Hc; cbn [andb].
  - destruct (newline_ahead t); [now rewrite orb_true_r|].
    now rewrite orb_false_r.
  - destruct (Ascii.eqb_spec c LF) as [->|]; [discriminate | reflexivity].
Qed.

Lemma lstrip_length (s : str) : length (lstrip s) <= length s.
Proof.
  induction s as [|c t IH]; simpl; [lia|].
  destruct (isspace c); simpl; lia.
Qed.

Lemma newline_ahead_shorter (c : ascii) (t : str) :
  newline_ahead (c :: t) = true -> length (lstrip (c :: t)) <= length t.
Proof.
  cbn [newline_ahead lstrip]. destruct (isspace c); [|discriminate].
  intros _. apply lstrip_length.
Qed.

(** Fuel beyond the length of the text changes nothing. *)
Lemma sub_fuel_enough (n m : nat) (s : str) :
  length s <= n -> length s <= m ->
  Re.sub_fuel n newline_run [SP] s = Re.sub_fuel m newline_run [SP] s.
Proof.
  revert m s. induction n as [|n IH]; intros m s Hn Hm.
  - destruct s; [|simpl in Hn; lia]. now destruct m.
  - destruct s as [|c t]; [now destruct m|].
    destruct m as [|m]; [simpl in Hm; lia|].
    cbn [Re.sub_fuel]. rewrite match_newline_run.
    simpl in Hn, Hm.
    destruct (newline_ahead (c :: t)) eqn:E.
    + apply newline_ahead_shorter in E. f_equal. apply IH; lia.
    + f_equal. apply IH; lia.
Qed.

Lemma collapse_cons (c : ascii) (t : str) :
  collapse (c :: t)
  = if newline_ahead (c :: t) then SP :: collapse (lstrip (c :: t))
    else c :: collapse t.
Proof.
  unfold collapse, Re.sub. cbn [length Re.sub_fuel].
  rewrite match_newline_run.
  destruct (newline_ahead (c :: t)) eqn:E.
  - apply newline_ahead_shorter in E. cbn [app]. f_equal.
    apply sub_fuel_enough; lia.
  - reflexivity.
Qed.

(** Induction on the text that follows the scanning of [re.sub]. *)
Lemma collapse_ind (P : str -> Prop) :
  P [] ->
  (forall c t, newline_ahead (c :: t) = true -> P (lstrip (c :: t)) ->
               P (c :: t)) ->
  (forall c t, newline_ahead (c :: t) = false -> P t -> P (c :: t)) ->
  forall s, P s.
Proof.
  intros H0 H1 H2 s.
  assert (H : forall n s, length s <= n -> P s).
  { clear s. induction n as [|n IH]; intros s Hs.
    - destruct s; [exact H0 | simpl in Hs; lia].
    - destruct s as [|c t]; [exact H0|]. simpl in Hs.
      destruct (newline_ahead (c :: t)) eqn:E.
      + apply H1; [exact E|]. apply IH.
        apply newline_ahead_shorter in E. lia.
      + apply H2; [exact E|]. apply IH. lia. }
  apply (H (length s)). lia.
Qed.

Lemma newline_ahead_LF (t : str) : newline_ahead (LF :: t) = true.
Proof. reflexivity. Qed.

Lemma newline_ahead_In (s : str) : newline_ahead s = true -> In LF s.
Proof.
  induction s as [|c t IH]; [discriminate|]. cbn [newline_ahead].
  intros H. apply andb_true_iff in H as [_ H].
  apply orb_true_iff in H as [H|H].
  - left. symmetry. now apply Ascii.eqb_eq.
  - right. auto.
Qed.

Lemma collapse_no_newline (s : str) : ~ In LF (collapse s).
Proof.
  induction s as [|c t E IH|c t E IH] using collapse_ind.
  - simpl. tauto.
  - rewrite collapse_cons, E. intros [H|H]; [discriminate | auto].
  - rewrite collapse_cons, E. intros [H|H]; [|auto].
    subst c. now rewrite newline_ahead_LF in E.
Qed.

Lemma collapse_without_newline (s : str) : ~ In LF s -> collapse s = s.
Proof.
  induction s as [|c t IH]; intros H; [reflexivity|].
  rewrite collapse_cons.
  destruct (newline_ahead (c :: t)) eqn:E.
  - apply newline_ahead_In in E. contradiction.
  - f_equal. apply IH. intros Hin. apply H. now right.
Qed.

Lemma collapse_no_leading (s : str) :
  no_leading_space s = true -> no_leading_space (collapse s) = true.
Proof.
  destruct s as [|c t]; [reflexivity|]. intros H. rewrite collapse_cons.
  cbn [no_leading_space] in H. cbn [newline_ahead].
  destruct (isspace c) eqn:Hc; [discriminate|].
  cbn [andb no_leading_space]. now rewrite Hc.
Qed.

Lemma lstrip_keeps_last (p : str) (x : ascii) :
  isspace x = false -> exists q, lstrip (p ++ [x]) = q ++ [x].
Proof.
  intros Hx. induction p as [|c p IH].
  - exists []. simpl. now rewrite Hx.
  - cbn [app lstrip]. destruct (isspace c); [exact IH|]. now exists (c :: p).
Qed.

(** The last character, when it is not whitespace, stays the last one. *)
Lemma collapse_keeps_last (s p : str) (x : ascii) :
  isspace x = false -> s = p ++ [x] -> exists q, collapse s = q ++ [x].
Proof.
  intros Hx. revert p.
  induction s as [|c t E IH|c t E IH] using collapse_ind; intros p Hs.
  - now destruct p.
  - rewrite collapse_cons, E.
    destruct (lstrip_keeps_last p x Hx) as [q Hq]. rewrite <- Hs in Hq.
    destruct (IH q Hq) as [q' Hq']. exists (SP :: q'). now rewrite Hq'.
  - rewrite collapse_cons, E. destruct p as [|c' p].
    + injection Hs as -> ->. now exists [].
    + injection Hs as -> ->. destruct (IH p eq_refl) as [q Hq].
      exists (c' :: q). now rewrite Hq.
Qed.

End NewlineRun.

(** ** Trimmed strings *)

Section Trimmed.

Lemma lstrip_app_keep (w : str) (c : ascii) :
  isspace c = false -> lstrip (w ++ [c]) = lstrip w ++ [c].
Proof.
  intros Hc. induction w as [|d w IH]; simpl; [now rewrite Hc|].
  now destruct (isspace d).
Qed.

Lemma rstrip_cons_keep (c : ascii) (t : str) :
  isspace c = false -> rstrip (c :: t) = c :: rstrip t.
Proof.
  intros Hc. unfold rstrip. cbn [rev].
  rewrite lstrip_app_keep by exact Hc. rewrite rev_app_distr. reflexivity.
Qed.

Lemma no_leading_rstrip (s : str) :
  no_leading_space s = true -> no_leading_space (rstrip s) = true.
Proof.
  destruct s as [|c t]; [reflexivity|]. cbn [no_leading_space]. intros H.
  apply negb_true_iff in H. rewrite rstrip_cons_keep by exact H.
  cbn [no_leading_space]. now rewrite H.
Qed.

Lemma no_leading_strip (s : str) : no_leading_space (strip s) = true.
Proof. apply no_leading_rstrip, no_leading_lstrip. Qed.

Lemma no_trailing_strip (s : str) : no_trailing_space (strip s) = true.
Proof. apply no_trailing_rstrip. Qed.

Lemma trimmed_iff (s : str) :
  trimmed s = true
  <-> s <> [] /\ no_leading_space s = true /\ no_trailing_space s = true.
Proof.
  unfold trimmed. rewrite !andb_true_iff. destruct s; simpl; intuition congruence.
Qed.

Lemma strip_fixed (s : str) :
  no_leading_space s = true -> no_trailing_space s = true -> strip s = s.
Proof.
  intros H1 H2. unfold strip. rewrite lstrip_no_leading by exact H1.
  now apply rstrip_no_trailing.
Qed.

Lemma strip_idem (s : str) : strip (strip s) = strip s.
Proof. apply strip_fixed; [apply no_leading_strip | apply no_trailing_strip]. Qed.

Lemma no_trailing_last (p : str) (x : ascii) :
  no_trailing_space (p ++ [x]) = negb (isspace x).
Proof. unfold no_trailing_space. now rewrite rev_app_distr. Qed.

Lemma last_decomposition (s : str) :
  s <> [] -> exists p x, s = p ++ [x].
Proof.
  intros H. destruct (exists_last H) as (p & x & E). now exists p, x.
Qed.

Lemma no_leading_app (a b : str) :
  a <> [] -> no_leading_space (a ++ b) = no_leading_space a.
Proof. destruct a; [contradiction | reflexivity]. Qed.

Lemma In_lstrip (x : ascii) (s : str) : In x (lstrip s) -> In x s.
Proof.
  induction s as [|c t IH]; simpl; [tauto|].
  destruct (isspace c); simpl; tauto.
Qed.

Lemma In_rstrip (x : ascii) (s : str) : In x (rstrip s) -> In x s.
Proof.
  unfold rstrip. intros H. apply in_rev in H. apply In_lstrip in H.
  now apply in_rev.
Qed.

Lemma In_strip (x : ascii) (s : str) : In x (strip s) -> In x s.
Proof. intros H. now apply In_lstrip, In_rstrip. Qed.

End Trimmed.

(** ** The normalized summary *)

Section Normalized.

Lemma normalize_summary_unfold (s : str) :
  normalize_summary s
  = if endswith (collapse (strip s)) [DOT] then collapse (strip s)
    else collapse (strip s) ++ [DOT].
Proof.
  unfold normalize_summary, collapse.
  now destruct (endswith (Re.sub newline_run [SP] (strip s)) [DOT]).
Qed.

Lemma normalize_no_newline (s : str) : ~ In LF (normalize_summary s).
Proof.
  rewrite normalize_summary_unfold.
  destruct (endswith (collapse (strip s)) [DOT]).
  - apply collapse_no_newline.
  - intros H. apply in_app_or in H as [H|[H|[]]]; [|discriminate].
    now apply collapse_no_newline in H.
Qed.

Lemma normalize_ends_period (s : str) :
  endswith (normalize_summary s) [DOT] = true.
Proof.
  rewrite normalize_summary_unfold.
  destruct (endswith (collapse (strip s)) [DOT]) eqn:E; [exact E|].
  apply endswith_app.
Qed.

Lemma collapse_strip_trimmed (s : str) :
  strip s <> [] -> trimmed (collapse (strip s)) = true.
Proof.
  intros H. apply trimmed_iff.
  destruct (last_decomposition (strip s) H) as (p & x & E).
  assert (Hx : isspace x = false).
  { pose proof (no_trailing_strip s) as T. rewrite E, no_trailing_last in T.
    now apply negb_true_iff. }
  destruct (collapse_keeps_last (strip s) p x Hx E) as [q Hq].
  repeat split.
  - rewrite Hq. now destruct q.
  - apply collapse_no_leading, no_leading_strip.
  - rewrite Hq, no_trailing_last. now rewrite Hx.
Qed.

Lemma normalize_trimmed (s : str) : trimmed (normalize_summary s) = true.
Proof.
  rewrite normalize_summary_unfold.
  destruct (strip s) as [|c t] eqn:E; [reflexivity|].
  assert (H : trimmed (collapse (c :: t)) = true).
  { rewrite <- E. apply collapse_strip_trimmed. rewrite E. discriminate. }
  destruct (endswith (collapse (c :: t)) [DOT]); [exact H|].
  apply trimmed_iff in H as (H1 & H2 & H3). apply trimmed_iff. repeat split.
  - now destruct (collapse (c :: t)).
  - now rewrite no_leading_app.
  - now rewrite no_trailing_last.
Qed.

Lemma normalize_strip (s : str) :
  strip (normalize_summary s) = normalize_summary s.
Proof.
  pose proof (normalize_trimmed s) as H. apply trimmed_iff in H.
  now apply strip_fixed.
Qed.

Lemma normalize_fixed (n : str) :
  strip n = n -> ~ In LF n -> endswith n [DOT] = true ->
  normalize_summary n = n.
Proof.
  intros H1 H2 H3. rewrite normalize_summary_unfold, H1.
  rewrite collapse_without_newline by exact H2. now rewrite H3.
Qed.

(** C10: [normalize_summary] is idempotent; its result holds no line break,
    has no whitespace at either end and ends with a period. *)
Theorem C10_normalize_summary_idempotent (s : str) :
  normalize_summary (normalize_summary s) = normalize_summary s
  /\ ~ In LF (normalize_summary s)
  /\ strip (normalize_summary s) = normalize_summary s
  /\ endswith (normalize_summary s) [DOT] = true.
Proof.
  assert (H1 := normalize_no_newline s).
  assert (H2 := normalize_strip s).
  assert (H3 := normalize_ends_period s).
  repeat split; try assumption.
  now apply normalize_fixed.
Qed.

End Normalized.

(** ** The summary line *)

Section SummaryLine.

Lemma startswith_nil (s : str) : startswith s [] = true.
Proof. now destruct s. Qed.



End SummaryLine.

(** ** The loop of [format_code] *)

Section Loop.

Lemma loop_body_fixed (st : locals) (t : token) :
  (is_docstring (previous_token_type st) t = true ->
   format_docstring (previous_token_string st) (tok_string t)
   = Ok (tok_string t)) ->
  loop_body st t
  = Ok (Locals (formatted st ++ gap (last_row st) (last_column st) t
                ++ tok_string t)
               (tok_string t) (Some (tok_type t))
               (fst (tok_end t)) (snd (tok_end t))).
Proof.
  intros H. unfold loop_body, gap.
  destruct (tok_start t) as [start_row start_column].
  destruct (tok_end t) as [end_row end_column]. cbn [fst snd].
  rewrite Z.gtb_ltb.
  assert (E : (if is_docstring (previous_token_type st) t
               then format_docstring (previous_token_string st) (tok_string t)
               else Ok (tok_string t)) = Ok (tok_string t)).
  { destruct (is_docstring (previous_token_type st) t); auto. }
  rewrite E. cbn [bind]. rewrite Z.gtb_ltb.
  remember (if (last_row st <? start_row)%Z then 0%Z else last_column st)
    as column eqn:Hcolumn.
  destruct (column <? start_column)%Z eqn:C.
  - now rewrite <- app_assoc.
  - apply Z.ltb_ge in C.
    replace (Z.to_nat (start_column - column)) with 0 by lia.
    reflexivity.
Qed.

(** When every docstring of the stream is formatted to itself, the loop
    lays the token texts out with spaces. *)
Lemma loop_fixed (tokens : list token) :
  forall st,
    docstrings_fixed (previous_token_type st) (previous_token_string st)
      tokens ->
    exists st',
      loop st tokens = Ok st'
      /\ formatted st'
         = formatted st ++ spaced (last_row st) (last_column st) tokens.
Proof.
  induction tokens as [|t rest IH]; intros st H.
  - exists st. cbn [loop spaced]. now rewrite app_nil_r.
  - destruct H as [Ht Hrest]. cbn [loop].
    rewrite (loop_body_fixed st t Ht). cbn [bind].
    destruct (IH (Locals (formatted st ++ gap (last_row st) (last_column st) t
                                   ++ tok_string t)
                         (tok_string t) (Some (tok_type t))
                         (fst (tok_end t)) (snd (tok_end t))) Hrest)
      as (st' & E1 & E2).
    exists st'. split; [exact E1|].
    rewrite E2. cbn [formatted last_row last_column spaced].
    now rewrite <- !app_assoc.
Qed.

Lemma format_tokens_fixed (tokens : list token) :
  docstrings_fixed None [] tokens ->
  format_tokens tokens = Ok (spaced 0 (-1) tokens).
Proof.
  intros H. unfold format_tokens.
  destruct (loop_fixed tokens initial H) as (st' & E1 & E2).
  rewrite E1. cbn [bind]. now rewrite E2.
Qed.






(** C1: a docstring in three single quotes right after an indentation
    token is triple-quoted, yet the test of [starts_with_triple] fails on it
    and [format_code] emits its raw text, not the text [format_docstring]
    gives for it. *)
Theorem C1_single_quoted_docstring_raw :
  tokens_in single_source single_tokens = true
  /\ triple_quoted single_quoted = true
  /\ starts_with_triple single_quoted = false
  /\ format_code sample_tokens single_source = Ok single_source
  /\ format_docstring (lit "    ") single_quoted
     = Ok (triple_double ++ lit "doc." ++ [LF; LF] ++ lit "    more"
           ++ [LF; LF] ++ lit "    " ++ triple_double).
Proof. repeat split. Qed.

End Loop.

(** ** Formatting a formatted docstring *)

Section Reformat.

Lemma strip_docstring_stripped (d c : str) :
  strip_docstring d = Ok c -> strip c = c.
Proof.
  unfold strip_docstring.
  destruct (startswith (lstrip d) triple_single).
  - destruct (endswith (rstrip d) triple_single); cbn [assert bind];
      [|discriminate].
    destruct (index (Py.split1 triple_single d) 1) as [a|]; cbn [bind];
      [|discriminate].
    destruct (index (rsplit1 triple_single a) 0) as [b|]; cbn [bind];
      [|discriminate].
    intros H. injection H as <-. apply strip_idem.
  - cbn [bind].
    destruct (index (Py.split1 triple_double d) 1) as [a|]; cbn [bind];
      [|discriminate].
    destruct (index (rsplit1 triple_double a) 0) as [b|]; cbn [bind];
      [|discriminate].
    intros H. injection H as <-. apply strip_idem.
Qed.

Lemma no_trailing_app (a b : str) :
  b <> [] -> no_trailing_space (a ++ b) = no_trailing_space b.
Proof.
  intros H. unfold no_trailing_space. rewrite rev_app_distr.
  apply no_leading_app. now rewrite rev_nil_iff.
Qed.

(** The description of trimmed contents does not end with whitespace. *)
Lemma description_no_trailing (contents summary description : str) :
  no_trailing_space contents = true ->
  split_summary_and_description contents = (summary, description) ->
  no_trailing_space description = true.
Proof.
  intros T. unfold split_summary_and_description.
  rewrite blank_second_line_test. unfold second_line_blank.
  pose proof (join_split LF contents) as J.
  destruct (Py.split LF contents) as [|first [|second rest]] eqn:E.
  - now apply split_not_nil in E.
  - unfold Re.split1. destruct (Re.search period_space contents) as [[a b]|];
      cbn; intros H; injection H as <- <-;
      [apply no_trailing_strip | reflexivity].
  - destruct (all_space second).
    + cbn [nth skipn]. intros H. injection H as <- <-.
      destruct rest as [|y rest]; [reflexivity|].
      rewrite !join_cons in J.
      destruct (join [LF] (y :: rest)) as [|c t] eqn:D; [reflexivity|].
      rewrite <- T, <- J.
      change (first ++ LF :: second ++ LF :: c :: t)
        with (first ++ (LF :: second) ++ (LF :: nil) ++ (c :: t)).
      rewrite !app_assoc. symmetry. now apply no_trailing_app.
    + unfold Re.split1.
      destruct (Re.search period_space contents) as [[a b]|];
        cbn; intros H; injection H as <- <-;
        [apply no_trailing_strip | reflexivity].
Qed.

Lemma lstrip_snoc (w : str) (c : ascii) :
  lstrip (w ++ [c]) = [] \/ exists w', lstrip (w ++ [c]) = w' ++ [c].
Proof.
  induction w as [|d w IH]; cbn [app lstrip].
  - destruct (isspace c); [now left | right; now exists []].
  - destruct (isspace d); [exact IH | right; now exists (d :: w)].
Qed.

Lemma rstrip_head (c : ascii) (t : str) :
  rstrip (c :: t) = [] \/ exists t', rstrip (c :: t) = c :: t'.
Proof.
  unfold rstrip. cbn [rev].
  destruct (lstrip_snoc (rev t) c) as [E|[w' E]]; rewrite E.
  - now left.
  - right. exists (rev w'). now rewrite rev_app_distr.
Qed.

Lemma indentation_like_space (s : str) :
  indentation_like s = true -> all_space s = true.
Proof.
  unfold indentation_like, all_space. induction s as [|c t IH]; [reflexivity|].
  cbn [forallb]. rewrite !andb_true_iff. intros [[H _] Ht]. auto.
Qed.

Lemma indentation_like_line (s : str) :
  indentation_like s = true -> ~ In LF s.
Proof.
  unfold indentation_like. induction s as [|c t IH]; [intros _ []|].
  cbn [forallb]. rewrite !andb_true_iff. intros [[_ H] Ht] [->|Hin].
  - discriminate.
  - now apply IH.
Qed.

Lemma reindented_head (indentation line : str) :
  all_space indentation = true ->
  no_leading_space (reindented indentation line) = true ->
  reindented indentation line = [] \/ indentation = [].
Proof.
  intros Hi. unfold reindented.
  destruct (no_leading_space line) eqn:N.
  - destruct indentation as [|w ind]; [now right|]. cbn [app].
    destruct (rstrip_head w (ind ++ line)) as [E|[t' E]]; rewrite E.
    + now left.
    + cbn [no_leading_space]. apply andb_true_iff in Hi as [Hw _].
      rewrite Hw. discriminate.
  - destruct line as [|c t]; [discriminate|].
    destruct (rstrip_head c t) as [E|[t' E]]; rewrite E.
    + now left.
    + cbn [no_leading_space] in *. rewrite N. discriminate.
Qed.

Lemma reindented_idem (indentation line : str) :
  all_space indentation = true ->
  reindented indentation (reindented indentation line)
  = reindented indentation line.
Proof.
  intros Hi.
  assert (R : rstrip (reindented indentation line)
              = reindented indentation line) by apply rstrip_idem.
  pose proof (reindented_head indentation line Hi) as H.
  remember (reindented indentation line) as r eqn:Er. clear Er.
  unfold reindented. destruct (no_leading_space r); [|exact R].
  destruct (H eq_refl) as [->| ->].
  - rewrite app_nil_r. now apply rstrip_nil_iff.
  - exact R.
Qed.

Lemma reindented_line (indentation line : str) :
  ~ In LF indentation -> ~ In LF line ->
  ~ In LF (reindented indentation line).
Proof.
  intros Hi Hl H. unfold reindented in H. apply In_rstrip in H.
  destruct (no_leading_space line); [|contradiction].
  apply in_app_or in H as [H|H]; contradiction.
Qed.

Lemma reindented_keeps_last (indentation p : str) (x : ascii) :
  isspace x = false ->
  exists q, reindented indentation (p ++ [x]) = q ++ [x].
Proof.
  intros Hx. unfold reindented.
  assert (T : no_trailing_space [x] = true) by (cbn; now rewrite Hx).
  destruct (no_leading_space (p ++ [x])).
  - exists (indentation ++ p). rewrite app_assoc.
    now apply rstrip_app_no_trailing.
  - exists p. now apply rstrip_app_no_trailing.
Qed.

Lemma split_snoc (sep x : ascii) (p : str) :
  x <> sep -> exists init l, Py.split sep (p ++ [x]) = init ++ [l ++ [x]].
Proof.
  intros Hx. induction p as [|c p IH].
  - exists [], []. cbn. destruct (Ascii.eqb_spec x sep); [contradiction|].
    reflexivity.
  - destruct IH as (init & l & E). cbn [app].
    destruct (Ascii.eqb_spec c sep) as [->|Hc].
    + rewrite split_cons_sep, E. now exists ([] :: init), l.
    + destruct (split_cons_other sep c (p ++ [x]) Hc) as (l0 & ls & E1 & E2).
      rewrite E2. rewrite E in E1. destruct init as [|i init].
      * injection E1 as <- <-. now exists [], (c :: l).
      * injection E1 as <- <-. now exists ((c :: i) :: init), l.
Qed.

Lemma join_snoc (sep : str) (init : list str) (z : str) :
  exists pre, join sep (init ++ [z]) = pre ++ z.
Proof.
  induction init as [|i init IH].
  - now exists [].
  - destruct IH as [pre E]. exists (i ++ sep ++ pre).
    cbn [app join]. destruct (init ++ [z]) eqn:D.
    + now destruct init.
    + rewrite E. now rewrite <- !app_assoc.
Qed.

(** The re-indented description ends with the last character of the
    description. *)
Lemma description_lines_last (indentation p : str) (x : ascii) :
  isspace x = false ->
  exists q,
    join [LF] (map (reindented indentation) (Py.split LF (p ++ [x])))
    = q ++ [x].
Proof.
  intros Hx.
  destruct (split_snoc LF x p) as (init & l & E).
  { intros ->. discriminate. }
  rewrite E, map_app. cbn [map].
  destruct (reindented_keeps_last indentation l x Hx) as [q Hq]. rewrite Hq.
  destruct (join_snoc [LF] (map (reindented indentation) init) (q ++ [x]))
    as [pre Hpre].
  exists (pre ++ q). rewrite <- app_assoc. exact Hpre.
Qed.

End Reformat.

Section Idempotence.

Lemma strip_docstring_framed (m : str) :
  strip_docstring (triple_double ++ m ++ triple_double) = Ok (strip m).
Proof.
  pose proof (strip_docstring_delimited triple_double [] m []
                (or_introl eq_refl) eq_refl eq_refl) as H.
  cbn [app] in H. rewrite app_nil_r in H. exact H.
Qed.

Lemma reformat_plain (indentation contents : str) :
  strip contents = contents -> contents <> [] ->
  snd (split_summary_and_description contents) = [] ->
  format_docstring indentation (triple_double ++ contents ++ triple_double)
  = Ok (triple_double ++ contents ++ triple_double).
Proof.
  intros Hs Hc Hd. apply format_docstring_plain; [|exact Hc | exact Hd].
  rewrite strip_docstring_framed. now rewrite Hs.
Qed.

Lemma reformat_described (indentation summary p : str) (x : ascii) :
  indentation_like indentation = true ->
  isspace x = false ->
  let lines := map (reindented indentation) (Py.split LF (p ++ [x])) in
  let out := triple_double ++ normalize_summary summary ++ [LF; LF]
             ++ join [LF] lines ++ [LF; LF] ++ indentation ++ triple_double in
  format_docstring indentation out = Ok out.
Proof.
  intros Hi Hx lines out.
  pose proof (indentation_like_space indentation Hi) as Hspace.
  pose proof (indentation_like_line indentation Hi) as Hline.
  set (n := normalize_summary summary) in *.
  assert (Hn : trimmed n = true) by apply normalize_trimmed.
  apply trimmed_iff in Hn as (Hn1 & Hn2 & Hn3).
  assert (HnLF : ~ In LF n) by apply normalize_no_newline.
  destruct (description_lines_last indentation p x Hx) as [q Hq].
  fold lines in Hq.
  assert (Hlines : Forall (fun l => ~ In LF l) lines).
  { unfold lines. apply Forall_map.
    eapply Forall_impl; [|apply split_lines_no_sep].
    intros l Hl. now apply reindented_line. }
  assert (Hlines_ne : lines <> []).
  { unfold lines. intros H. apply map_eq_nil in H.
    now apply split_not_nil in H. }
  (* the contents of the formatted docstring *)
  assert (Hstrip : strip (n ++ [LF; LF] ++ join [LF] lines ++ [LF; LF]
                          ++ indentation)
                   = n ++ [LF; LF] ++ join [LF] lines).
  { unfold strip.
    rewrite lstrip_app_no_leading by (auto using truthy_true).
    replace (n ++ [LF; LF] ++ join [LF] lines ++ [LF; LF] ++ indentation)
      with ((n ++ [LF; LF] ++ join [LF] lines) ++ ([LF; LF] ++ indentation))
      by (now rewrite <- !app_assoc).
    rewrite rstrip_all_space by exact Hspace.
    rewrite Hq.
    replace (n ++ [LF; LF] ++ q ++ [x]) with ((n ++ [LF; LF] ++ q) ++ [x])
      by (now rewrite <- !app_assoc).
    apply rstrip_app_no_trailing; [reflexivity|].
    cbn. now rewrite Hx. }
  assert (Hsplit : split_summary_and_description
                     (n ++ [LF; LF] ++ join [LF] lines)
                   = (n, join [LF] lines)).
  { rewrite <- (join_split LF (join [LF] lines)) at 2.
    apply split_blank_second_line with (second := []); [|reflexivity].
    change (n ++ [LF; LF] ++ join [LF] lines)
      with (n ++ LF :: (LF :: join [LF] lines)).
    rewrite split_app by exact HnLF. now rewrite split_cons_sep. }
  unfold out.
  rewrite (format_docstring_described indentation _
             (n ++ [LF; LF] ++ join [LF] lines) n (join [LF] lines)).
  - rewrite (normalize_fixed n); cycle 1.
    { now apply strip_fixed. }
    { exact HnLF. }
    { apply normalize_ends_period. }
    rewrite (split_join LF lines Hlines_ne Hlines).
    unfold lines at 1. rewrite map_map.
    rewrite (map_ext _ (reindented indentation))
      by (intros l; now apply reindented_idem).
    reflexivity.
  - replace (triple_double ++ n ++ [LF; LF] ++ join [LF] lines ++ [LF; LF]
             ++ indentation ++ triple_double)
      with (triple_double
            ++ (n ++ [LF; LF] ++ join [LF] lines ++ [LF; LF] ++ indentation)
            ++ triple_double)
      by (now rewrite <- !app_assoc).
    rewrite strip_docstring_framed. now rewrite Hstrip.
  - now destruct n.
  - exact Hsplit.
  - rewrite Hq. now destruct q.
Qed.

(** Formatting again the non-empty result of [format_docstring] under the
    same indentation gives the same result. *)
Lemma format_docstring_idempotent (indentation docstring out : str) :
  indentation_like indentation = true ->
  format_docstring indentation docstring = Ok out ->
  out <> [] ->
  format_docstring indentation out = Ok out.
Proof.
  intros Hi H Hout. unfold format_docstring in H.
  destruct (strip_docstring docstring) as [contents|] eqn:S;
    cbn [bind] in H; [|discriminate].
  pose proof (strip_docstring_stripped docstring contents S) as Hs.
  destruct contents as [|c0 contents']; cbn [truthy negb] in H.
  { injection H as <-. contradiction. }
  remember (c0 :: contents') as contents eqn:Ec.
  destruct (split_summary_and_description contents)
    as [summary description] eqn:E.
  destruct description as [|d0 description']; cbn [truthy] in H.
  - injection H as <-. apply reformat_plain.
    + exact Hs.
    + subst contents. discriminate.
    + now rewrite E.
  - assert (T : no_trailing_space (d0 :: description') = true).
    { apply (description_no_trailing contents summary); [|exact E].
      rewrite <- Hs. apply no_trailing_strip. }
    destruct (last_decomposition (d0 :: description')) as (p & x & D);
      [discriminate|].
    rewrite D in *. rewrite no_trailing_last in T.
    apply negb_true_iff in T.
    injection H as <-.
    rewrite (map_ext _ (reindented indentation))
      by (intros l; apply indent_non_indented_reindented).
    now apply reformat_described.
Qed.

End Idempotence.

(** ** A second pass of [format_code] *)

Section SecondPass.

Lemma is_docstring_not_empty (previous_type : option token_type) (t : token) :
  is_docstring previous_type t = true -> tok_string t <> [].
Proof.
  unfold is_docstring. intros H E. rewrite E in H.
  rewrite andb_false_r in H. discriminate.
Qed.

Lemma loop_body_eq (st : locals) (t : token) :
  loop_body st t
  = (text <- (if is_docstring (previous_token_type st) t
              then format_docstring (previous_token_string st) (tok_string t)
              else Ok (tok_string t)) ;;
     Ok (Locals (formatted st ++ gap (last_row st) (last_column st) t
                 ++ text)
                (tok_string t) (Some (tok_type t))
                (fst (tok_end t)) (snd (tok_end t)))).
Proof.
  unfold loop_body, gap.
  destruct (tok_start t) as [start_row start_column].
  destruct (tok_end t) as [end_row end_column]. cbn [fst snd].
  rewrite Z.gtb_ltb.
  destruct (if is_docstring (previous_token_type st) t
            then format_docstring (previous_token_string st) (tok_string t)
            else Ok (tok_string t)) as [text|e]; cbn [bind]; [|reflexivity].
  rewrite Z.gtb_ltb.
  remember (if (last_row st <? start_row)%Z then 0%Z else last_column st)
    as column eqn:Hcolumn.
  destruct (column <? start_column)%Z eqn:C.
  - now rewrite <- app_assoc.
  - apply Z.ltb_ge in C.
    replace (Z.to_nat (start_column - column)) with 0 by lia.
    reflexivity.
Qed.

Lemma is_docstring_indent (previous_type : option token_type) (t : token) :
  is_docstring previous_type t = true -> previous_type = Some INDENT.
Proof.
  unfold is_docstring. intros H. apply andb_true_iff in H as [_ H].
  destruct previous_type as [ty|]; [|discriminate]. now destruct ty.
Qed.

Lemma indent_not_docstring (previous_type : option token_type) (t : token) :
  tok_type t = INDENT -> is_docstring previous_type t = false.
Proof. unfold is_docstring. now intros ->. Qed.

(** What the second pass emits for a token is what the first pass emitted
    for the token it comes from. *)
Lemma second_pass_text (pt : option token_type) (ps : str) (t t' : token)
    (text : str) :
  (pt = Some INDENT -> indentation_like ps = true) ->
  tok_type t' = tok_type t ->
  (if is_docstring pt t
   then format_docstring ps (tok_string t) = Ok (tok_string t')
   else tok_string t' = tok_string t) ->
  (if is_docstring pt t then format_docstring ps (tok_string t)
   else Ok (tok_string t)) = Ok text ->
  (if is_docstring pt t' then format_docstring ps (tok_string t')
   else Ok (tok_string t')) = Ok text.
Proof.
  intros Hi Hty Htx H1. destruct (is_docstring pt t) eqn:D.
  - assert (text = tok_string t') by congruence. subst text.
    destruct (is_docstring pt t') eqn:D'; [|reflexivity].
    apply (format_docstring_idempotent ps (tok_string t)).
    + apply Hi. now apply is_docstring_indent in D.
    + exact Htx.
    + now apply is_docstring_not_empty with pt.
  - injection H1 as <-.
    assert (D' : is_docstring pt t' = false).
    { unfold is_docstring in *. now rewrite Hty, Htx. }
    now rewrite D', Htx.
Qed.

(** The second pass appends what the first pass appended. *)
Lemma second_pass_loop (tokens : list token) :
  forall tokens' st st' st1,
    retokenized (previous_token_type st) (previous_token_string st)
      (last_row st) (last_column st) (last_row st') (last_column st')
      tokens tokens' ->
    previous_token_type st' = previous_token_type st ->
    (previous_token_type st = Some INDENT ->
     previous_token_string st' = previous_token_string st
     /\ indentation_like (previous_token_string st) = true) ->
    indent_tokens_blank tokens = true ->
    loop st tokens = Ok st1 ->
    exists x st1',
      formatted st1 = formatted st ++ x
      /\ loop st' tokens' = Ok st1'
      /\ formatted st1' = formatted st' ++ x.
Proof.
  induction tokens as [|t rest IH]; intros tokens' st st' st1 R Hty Hin Hb H.
  - destruct tokens' as [|t' rest']; [|contradiction].
    injection H as <-. exists [], st'. now rewrite !app_nil_r.
  - destruct tokens' as [|t' rest']; [contradiction|].
    destruct R as (Rty & Rtx & Rgap & Rrest).
    cbn [indent_tokens_blank forallb] in Hb.
    apply andb_true_iff in Hb as [Hbt Hbrest].
    cbn [loop] in H |- *. rewrite loop_body_eq in H. rewrite loop_body_eq.
    destruct (if is_docstring (previous_token_type st) t
              then format_docstring (previous_token_string st) (tok_string t)
              else Ok (tok_string t)) as [text|e] eqn:E1;
      cbn [bind] in H; [|discriminate].
    assert (E2 : (if is_docstring (previous_token_type st') t'
                  then format_docstring (previous_token_string st')
                         (tok_string t')
                  else Ok (tok_string t')) = Ok text).
    { rewrite Hty.
      destruct (is_docstring (previous_token_type st) t') eqn:D'.
      - pose proof (is_docstring_indent _ _ D') as Hp.
        destruct (Hin Hp) as [Hs Hi]. rewrite Hs.
        pose proof (second_pass_text (previous_token_type st)
                      (previous_token_string st) t t' text
                      (fun _ => Hi) Rty Rtx E1) as S.
        now rewrite D' in S.
      - pose proof (second_pass_text (previous_token_type st)
                      (previous_token_string st) t t' text) as S.
        rewrite D' in S. apply S; auto.
        intros Hp. now apply Hin. }
    rewrite E2. cbn [bind]. rewrite Rgap.
    match type of H with
    | loop ?a rest = _ => set (sa := a) in *
    end.
    match goal with
    | |- exists _ _, _ /\ loop ?b rest' = _ /\ _ => set (sb := b)
    end.
    destruct (IH rest' sa sb st1) as (x & st1' & X1 & X2 & X3).
    + exact Rrest.
    + unfold sa, sb. cbn [previous_token_type]. now rewrite Rty.
    + unfold sa, sb. cbn [previous_token_type previous_token_string].
      intros Hp. injection Hp as Hp.
      rewrite Hp in Hbt. cbn in Hbt.
      rewrite (indent_not_docstring (previous_token_type st) t Hp) in Rtx.
      now split.
    + exact Hbrest.
    + exact H.
    + exists (gap (last_row st) (last_column st) t ++ text ++ x), st1'.
      split; [|split].
      * rewrite X1. unfold sa. cbn [formatted]. now rewrite <- !app_assoc.
      * exact X2.
      * rewrite X3. unfold sb. cbn [formatted]. now rewrite <- !app_assoc.
Qed.

(** C3, as the code has it: a second pass returns the output of the first
    when tokenizing that output gives the tokens of the source again, token
    for token with the same type, the text the first pass emitted and the
    same spaces before it, and the indentation tokens hold whitespace
    without a line break. *)
Theorem C3_idempotent_when_retokenized
    (generate_tokens : str -> result (list token))
    (source out : str) (tokens tokens' : list token) :
  generate_tokens source = Ok tokens ->
  format_code generate_tokens source = Ok out ->
  generate_tokens out = Ok tokens' ->
  indent_tokens_blank tokens = true ->
  retokenized None [] 0 (-1) 0 (-1) tokens tokens' ->
  format_code generate_tokens out = Ok out.
Proof.
  intros Hg H Hg' Hb R. unfold format_code in *. rewrite Hg in H.
  rewrite Hg'. cbn [bind] in *. unfold format_tokens in *.
  destruct (loop initial tokens) as [st1|e] eqn:L; cbn [bind] in H;
    [|discriminate].
  injection H as <-.
  destruct (second_pass_loop tokens tokens' initial initial st1)
    as (x & st1' & X1 & X2 & X3).
  - exact R.
  - reflexivity.
  - discriminate.
  - exact Hb.
  - exact L.
  - rewrite X2. cbn [bind]. now rewrite X1, X3.
Qed.

(** The second pass over the text the first pass returned for a function
    with one docstring. *)
Lemma C3_idempotent_when_retokenized_witness :
  format_code sample_tokens first_pass = Ok second_pass
  /\ format_code sample_tokens second_pass = Ok second_pass.
Proof.
  assert (H1 : format_code sample_tokens first_pass = Ok second_pass)
    by reflexivity.
  split; [exact H1|].
  apply (C3_idempotent_when_retokenized sample_tokens first_pass second_pass
           first_pass_tokens second_pass_tokens);
    [reflexivity | exact H1 | reflexivity | reflexivity |].
  vm_compute. repeat split.
Defined.

(** An empty docstring is formatted to nothing; on the second pass the
    string after it follows an indentation token and is rewritten. *)
Lemma C3_counterexample :
  tokens_in two_strings_source two_strings_tokens = true
  /\ tokens_in first_pass first_pass_tokens = true
  /\ format_code sample_tokens two_strings_source = Ok first_pass
  /\ format_code sample_tokens first_pass = Ok second_pass
  /\ first_pass <> second_pass.
Proof. repeat split. discriminate. Qed.

End SecondPass.

(** ** Errors of [strip_docstring] *)

Section StripErrors.

Lemma partition_sound (sep : str) (s : str) :
  forall a b, partition sep s = Some (a, b) -> s = a ++ sep ++ b.
Proof.
  induction s as [|c t IH]; intros a b; rewrite partition_unfold.
  - destruct (startswith [] sep) eqn:E; [|discriminate].
    intros H. injection H as <- <-. apply startswith_spec in E as [r E].
    destruct sep; [reflexivity | discriminate].
  - destruct (startswith (c :: t) sep) eqn:E.
    + intros H. injection H as <- <-. apply startswith_spec in E as [r E].
      rewrite E. now rewrite skipn_length_app.
    + destruct (partition sep t) as [[a' b']|]; [|discriminate].
      intros H. injection H as <- <-. cbn [app]. f_equal. now apply IH.
Qed.

Lemma partition_complete (sep s : str) :
  occurs sep s -> exists a b, partition sep s = Some (a, b).
Proof.
  intros (a & b & ->). induction a as [|c a IH]; rewrite partition_unfold.
  - cbn [app]. rewrite startswith_app. eauto.
  - destruct (startswith ((c :: a) ++ sep ++ b) sep); [eauto|].
    cbn [app]. destruct IH as (a' & b' & ->). eauto.
Qed.

Lemma lstrip_suffix (d : str) :
  exists ws, all_space ws = true /\ d = ws ++ lstrip d.
Proof.
  induction d as [|c t IH].
  - now exists [].
  - cbn [lstrip]. destruct (isspace c) eqn:E.
    + destruct IH as (ws & H1 & H2). exists (c :: ws). split.
      * cbn. now rewrite E.
      * cbn [app]. now rewrite <- H2.
    + now exists [].
Qed.

Lemma rstrip_prefix (d : str) :
  exists ws, all_space ws = true /\ d = rstrip d ++ ws.
Proof.
  destruct (lstrip_suffix (rev d)) as (ws & H1 & H2).
  exists (rev ws). split; [now rewrite all_space_rev|].
  unfold rstrip. rewrite <- rev_app_distr, <- H2. now rewrite rev_involutive.
Qed.

Lemma index_rsplit1_first (sep s : str) :
  exists x, index (rsplit1 sep s) 0 = Ok x.
Proof.
  unfold rsplit1.
  destruct (partition (rev sep) (rev s)) as [[a b]|]; eexists; reflexivity.
Qed.

(** The delimiter found after leading whitespace. *)
Lemma index_split1_opening (q : ascii) (d rest : str) :
  isspace q = false -> lstrip d = [q; q; q] ++ rest ->
  index (Py.split1 [q; q; q] d) 1 = Ok rest.
Proof.
  intros Hq E. destruct (lstrip_suffix d) as (ws & H1 & H2).
  rewrite H2 at 1. rewrite E. now apply index_split1_delimited.
Qed.

Lemma strip_docstring_opening_double (d rest : str) :
  lstrip d = triple_double ++ rest -> exists c, strip_docstring d = Ok c.
Proof.
  intros E. unfold strip_docstring. rewrite E, startswith_double_single.
  cbn [bind]. unfold triple_double in *.
  rewrite (index_split1_opening DQ d rest eq_refl E). cbn [bind].
  destruct (index_rsplit1_first [DQ; DQ; DQ] rest) as [x ->]. cbn [bind].
  eauto.
Qed.

Lemma strip_docstring_opening_single (d rest : str) :
  lstrip d = triple_single ++ rest ->
  endswith (rstrip d) triple_single = true ->
  exists c, strip_docstring d = Ok c.
Proof.
  intros E H. unfold strip_docstring. rewrite E, startswith_app, H.
  cbn [assert bind]. unfold triple_single in *.
  rewrite (index_split1_opening SQ d rest eq_refl E). cbn [bind].
  destruct (index_rsplit1_first [SQ; SQ; SQ] rest) as [x ->]. cbn [bind].
  eauto.
Qed.

(** X1: [strip_docstring] raises [IndexError] exactly for a text that does not
    open with three single quotes and holds no three double quotes in a
    row. *)
Theorem X1_strip_docstring_index_error (docstring : str) :
  strip_docstring docstring = Raise IndexError
  <-> startswith (lstrip docstring) triple_single = false
      /\ ~ occurs triple_double docstring.
Proof.
  split.
  - intros H. destruct (startswith (lstrip docstring) triple_single) eqn:S.
    + exfalso. apply startswith_spec in S as [rest S].
      destruct (endswith (rstrip docstring) triple_single) eqn:A.
      * destruct (strip_docstring_opening_single docstring rest S A) as [c E].
        congruence.
      * rewrite strip_docstring_assert in H by (rewrite ?S; auto using startswith_app).
        discriminate.
    + split; [reflexivity|]. intros O.
      destruct (partition_complete _ _ O) as (a & b & P).
      unfold strip_docstring in H. rewrite S in H. cbn [bind] in H.
      unfold Py.split1 in H. rewrite P in H. cbn [index nth_error bind] in H.
      destruct (index_rsplit1_first triple_double b) as [x E].
      rewrite E in H. discriminate.
  - intros [S O]. unfold strip_docstring. rewrite S. cbn [bind].
    unfold Py.split1.
    destruct (partition triple_double docstring) as [[a b]|] eqn:P.
    + exfalso. apply O. exists a, b. now apply partition_sound.
    + reflexivity.
Qed.

(** X2: the contents [strip_docstring] returns, put between three double
    quotes, are returned again. *)
Theorem X2_strip_docstring_round_trip (docstring contents : str) :
  strip_docstring docstring = Ok contents ->
  strip_docstring (triple_double ++ contents ++ triple_double) = Ok contents.
Proof.
  intros H. rewrite strip_docstring_framed.
  now rewrite (strip_docstring_stripped docstring contents H).
Qed.

Lemma X2_strip_docstring_round_trip_witness :
  strip_docstring (triple_single ++ lit " abc " ++ triple_single)
  = Ok (lit "abc")
  /\ strip_docstring (triple_double ++ lit "abc" ++ triple_double)
     = Ok (lit "abc").
Proof.
  assert (H : strip_docstring (triple_single ++ lit " abc " ++ triple_single)
              = Ok (lit "abc")) by reflexivity.
  split; [exact H|]. exact (X2_strip_docstring_round_trip _ _ H).
Defined.

End StripErrors.

(** ** What the loop can raise *)

Section LoopErrors.

Lemma format_docstring_ok (indentation d c : str) :
  strip_docstring d = Ok c -> exists out, format_docstring indentation d = Ok out.
Proof.
  intros H. unfold format_docstring. rewrite H. cbn [bind].
  destruct (negb (truthy c)); [eauto|].
  destruct (split_summary_and_description c) as [sm ds].
  destruct (truthy ds); eauto.
Qed.

Lemma startswith_strip_lstrip (d p : str) :
  startswith (strip d) p = true -> startswith (lstrip d) p = true.
Proof.
  unfold strip. intros H. apply startswith_spec in H as [r E].
  destruct (rstrip_prefix (lstrip d)) as (ws & _ & W).
  apply startswith_spec. exists (r ++ ws). rewrite W at 1. rewrite E.
  now rewrite app_assoc.
Qed.

(** A text that passes [starts_with_triple] is formatted, unless it opens
    with single quotes and does not close with three of them. *)
Lemma starts_with_triple_formatted (indentation d : str) :
  starts_with_triple d = true ->
  (startswith (lstrip d) triple_single = true ->
   endswith (rstrip d) triple_single = true) ->
  exists out, format_docstring indentation d = Ok out.
Proof.
  unfold starts_with_triple. intros H A.
  apply orb_true_iff in H as [H|H]; apply startswith_strip_lstrip in H;
    apply startswith_spec in H as [r E].
  - destruct (strip_docstring_opening_double d r E) as [c Hc].
    now apply format_docstring_ok with c.
  - change (quadruple_single ++ r) with (triple_single ++ SQ :: r) in E.
    assert (S : startswith (lstrip d) triple_single = true)
      by (rewrite E; apply startswith_app).
    destruct (strip_docstring_opening_single d (SQ :: r) E (A S)) as [c Hc].
    now apply format_docstring_ok with c.
Qed.

Lemma loop_completes (tokens : list token) :
  closed_strings tokens -> forall st, exists st', loop st tokens = Ok st'.
Proof.
  induction 1 as [|t rest Ht Hrest IH]; intros st; [now exists st|].
  cbn [loop]. unfold loop_body.
  destruct (tok_start t) as [sr sc]. destruct (tok_end t) as [er ec].
  destruct (is_docstring (previous_token_type st) t) eqn:D.
  - unfold is_docstring in D. apply andb_true_iff in D as [D _].
    apply andb_true_iff in D as [_ D].
    destruct (starts_with_triple_formatted (previous_token_string st)
                (tok_string t) D Ht) as [out ->].
    cbn [bind]. apply IH.
  - cbn [bind]. apply IH.
Qed.

End LoopErrors.

(** ** The loop as a whole *)

Section LoopWhole.

(** X3: on a token stream whose string tokens that open with three single
    quotes also close with them, the loop of [format_code] raises nothing
    and returns a text. *)
Theorem X3_format_tokens_completes (tokens : list token) :
  closed_strings tokens -> exists out, format_tokens tokens = Ok out.
Proof.
  intros H. unfold format_tokens.
  destruct (loop_completes tokens H initial) as [st' ->]. cbn [bind]. eauto.
Qed.

Lemma X3_format_tokens_completes_witness :
  exists out, format_tokens two_strings_tokens = Ok out.
Proof.
  apply X3_format_tokens_completes.
  repeat (constructor; [intros H; first [discriminate H | reflexivity]|]).
  constructor.
Defined.

Lemma no_indent_fixed (tokens : list token) :
  forall previous_type previous_string,
    previous_type <> Some INDENT ->
    no_indent tokens = true ->
    docstrings_fixed previous_type previous_string tokens.
Proof.
  induction tokens as [|t rest IH]; intros pt ps Hp H; [exact I|].
  cbn [no_indent forallb] in H. apply andb_true_iff in H as [H1 H2].
  split.
  - intros D. exfalso. unfold is_docstring in D.
    apply andb_true_iff in D as [_ D].
    destruct pt as [ty|]; [|discriminate].
    destruct ty; try discriminate. now apply Hp.
  - apply IH; [|exact H2]. intros E. injection E as E.
    rewrite E in H1. discriminate.
Qed.

(** X4: a token stream without indentation token is never rewritten, even
    when it holds triple-quoted strings: the result is the token texts moved
    to their columns with spaces. *)
Theorem X4_no_indent_untouched (tokens : list token) :
  no_indent tokens = true ->
  format_tokens tokens = Ok (spaced 0 (-1) tokens).
Proof.
  intros H. apply format_tokens_fixed. now apply no_indent_fixed.
Qed.

Lemma X4_no_indent_untouched_witness :
  starts_with_triple module_doc = true
  /\ format_tokens module_tokens = Ok (module_doc ++ [LF]).
Proof.
  split; [reflexivity|].
  exact (X4_no_indent_untouched module_tokens eq_refl).
Defined.

Lemma loop_app (a b : list token) :
  forall st, loop st (a ++ b) = (st' <- loop st a ;; loop st' b).
Proof.
  induction a as [|t a IH]; intros st; [reflexivity|].
  cbn [app loop]. destruct (loop_body st t) as [st1|e]; cbn [bind]; auto.
Qed.

Lemma loop_body_extends (st st' : locals) (t : token) :
  loop_body st t = Ok st' ->
  exists suffix, formatted st' = formatted st ++ suffix.
Proof.
  unfold loop_body.
  destruct (tok_start t) as [sr sc]. destruct (tok_end t) as [er ec].
  destruct (if is_docstring (previous_token_type st) t
            then format_docstring (previous_token_string st) (tok_string t)
            else Ok (tok_string t)) as [text|e]; cbn [bind]; [|discriminate].
  intros H. injection H as <-. cbn [formatted].
  destruct (sc >? (if (sr >? last_row st)%Z then 0 else last_column st))%Z.
  - rewrite <- app_assoc. eauto.
  - eauto.
Qed.

Lemma loop_extends (tokens : list token) :
  forall st st',
    loop st tokens = Ok st' ->
    exists suffix, formatted st' = formatted st ++ suffix.
Proof.
  induction tokens as [|t rest IH]; intros st st' H.
  - injection H as <-. exists []. now rewrite app_nil_r.
  - cbn [loop] in H. destruct (loop_body st t) as [st1|e] eqn:B;
      cbn [bind] in H; [|discriminate].
    destruct (loop_body_extends st st1 t B) as [s1 E1].
    destruct (IH st1 st' H) as [s2 E2].
    exists (s1 ++ s2). now rewrite E2, E1, app_assoc.
Qed.

(** X5: the loop only appends: when a token stream is formatted, so is
    every prefix of it, and the text of the prefix starts the text of the
    whole stream. *)
Theorem X5_prefix_formatted_first (first rest : list token) (out : str) :
  format_tokens (first ++ rest) = Ok out ->
  exists out_first suffix,
    format_tokens first = Ok out_first /\ out = out_first ++ suffix.
Proof.
  unfold format_tokens. rewrite loop_app.
  destruct (loop initial first) as [st1|e]; cbn [bind]; [|discriminate].
  destruct (loop st1 rest) as [st2|e] eqn:L; cbn [bind]; [|discriminate].
  intros H. injection H as <-.
  destruct (loop_extends rest st1 st2 L) as [suffix E].
  exists (formatted st1), suffix. auto.
Qed.

Lemma X5_prefix_formatted_first_witness :
  exists out_first suffix,
    format_tokens def_f = Ok out_first
    /\ first_pass = out_first ++ suffix.
Proof.
  apply (X5_prefix_formatted_first def_f
           (skipn (length def_f) two_strings_tokens) first_pass).
  reflexivity.
Defined.

End LoopWhole.

(** ** When the description is empty *)

Section EmptyDescription.

Lemma has_period_space_first (s : str) :
  has_period_space s = true ->
  exists a c b,
    s = a ++ DOT :: c :: b /\ isspace c = true /\ has_period_space a = false.
Proof.
  induction s as [|x t IH]; [discriminate|]. cbn [has_period_space].
  destruct (Ascii.eqb x DOT &&
            match t with d :: _ => isspace d | [] => false end) eqn:E.
  - intros _. apply andb_true_iff in E as [E1 E2].
    apply Ascii.eqb_eq in E1. subst x. destruct t as [|c b]; [discriminate|].
    now exists [], c, b.
  - cbn [orb]. intros H. destruct (IH H) as (a & c & b & -> & Hc & Ha).
    exists (x :: a), c, b. repeat split; [exact Hc|].
    cbn [has_period_space]. rewrite Ha, orb_false_r.
    destruct a as [|y a]; [now rewrite andb_false_r | exact E].
Qed.

Lemma trailing_space (x w : str) (c : ascii) :
  isspace c = true -> all_space w = true ->
  no_trailing_space (x ++ c :: w) = false.
Proof.
  intros Hc Hw. unfold no_trailing_space.
  rewrite rev_app_distr. cbn [rev]. rewrite <- app_assoc.
  rewrite <- all_space_rev in Hw.
  destruct (rev w) as [|y r].
  - cbn. now rewrite Hc.
  - cbn in *. apply andb_true_iff in Hw as [Hy _]. now rewrite Hy.
Qed.

Lemma blank_second_line_described (contents : str) :
  no_trailing_space contents = true ->
  second_line_blank contents = true ->
  snd (split_summary_and_description contents) <> [].
Proof.
  intros T B. unfold second_line_blank in B.
  pose proof (join_split LF contents) as J.
  destruct (Py.split LF contents) as [|first [|second rest]] eqn:E;
    try discriminate.
  rewrite (split_blank_second_line contents first second rest E B).
  cbn [snd]. intros D. rewrite <- J in T.
  destruct rest as [|y rest].
  - cbn [join] in T. change (first ++ [LF] ++ second)
      with (first ++ LF :: second) in T.
    now rewrite trailing_space in T.
  - rewrite !join_cons, D in T.
    replace (first ++ LF :: second ++ [LF])
      with ((first ++ LF :: second) ++ LF :: []) in T
      by (now rewrite <- app_assoc).
    now rewrite trailing_space in T.
Qed.

Lemma period_space_described (contents : str) :
  no_trailing_space contents = true ->
  second_line_blank contents = false ->
  has_period_space contents = true ->
  snd (split_summary_and_description contents) <> [].
Proof.
  intros T B P.
  destruct (has_period_space_first contents P) as (a & c & b & E & Hc & Ha).
  rewrite (split_at_period contents a b c B E Hc Ha). cbn [snd]. intros D.
  apply strip_nil_iff in D. rewrite E in T.
  replace (a ++ DOT :: c :: b) with ((a ++ [DOT]) ++ c :: b) in T
    by (now rewrite <- app_assoc).
  now rewrite trailing_space in T.
Qed.

(** X6: for contents that do not end with whitespace, the description is
    empty exactly when the second line is not blank and no period is
    followed by a whitespace character. *)
Theorem X6_description_empty_iff (contents : str) :
  no_trailing_space contents = true ->
  (snd (split_summary_and_description contents) = []
   <-> second_line_blank contents = false
       /\ has_period_space contents = false).
Proof.
  intros T. split.
  - intros D. destruct (second_line_blank contents) eqn:B.
    + now apply blank_second_line_described in B.
    + split; [reflexivity|].
      destruct (has_period_space contents) eqn:P; [|reflexivity].
      now apply period_space_described in P.
  - intros [B P]. now rewrite split_no_period.
Qed.

Lemma X6_description_empty_iff_witness :
  snd (split_summary_and_description (lit "Just this.")) = []
  <-> second_line_blank (lit "Just this.") = false
      /\ has_period_space (lit "Just this.") = false.
Proof. apply X6_description_empty_iff. reflexivity. Defined.

End EmptyDescription.

(** ** More on the normalized summary *)

Section NormalizedMore.

(** X7: the normalized summary is never empty; an empty or blank summary
    becomes a single period. *)
Theorem X7_normalize_summary_blank (summary : str) :
  normalize_summary summary <> []
  /\ (all_space summary = true -> normalize_summary summary = [DOT]).
Proof.
  split.
  - pose proof (normalize_trimmed summary) as H. apply trimmed_iff in H.
    tauto.
  - intros H. apply strip_nil_iff in H. rewrite normalize_summary_unfold, H.
    reflexivity.
Qed.

Lemma X7_normalize_summary_blank_witness :
  normalize_summary (lit "  ") = [DOT].
Proof.
  exact (proj2 (X7_normalize_summary_blank (lit "  ")) eq_refl).
Defined.

Lemma solid_lstrip (s : str) : solid (lstrip s) = solid s.
Proof.
  unfold solid. induction s as [|c t IH]; [reflexivity|]. cbn [lstrip filter].
  destruct (isspace c) eqn:E; cbn [negb]; [exact IH|].
  cbn [filter]. now rewrite E.
Qed.

Lemma solid_rev (s : str) : solid (rev s) = rev (solid s).
Proof.
  unfold solid. induction s as [|c t IH]; [reflexivity|].
  cbn [rev filter]. rewrite filter_app, IH. cbn [filter].
  destruct (negb (isspace c)); [reflexivity | now rewrite app_nil_r].
Qed.

Lemma solid_strip (s : str) : solid (strip s) = solid s.
Proof.
  unfold strip, rstrip. rewrite solid_rev, solid_lstrip, solid_rev.
  rewrite rev_involutive. apply solid_lstrip.
Qed.

Lemma solid_collapse (s : str) : solid (collapse s) = solid s.
Proof.
  induction s as [|c t E IH|c t E IH] using collapse_ind.
  - reflexivity.
  - rewrite collapse_cons, E. unfold solid at 1. cbn [filter isspace negb].
    fold (solid (collapse (lstrip (c :: t)))). rewrite IH.
    apply solid_lstrip.
  - rewrite collapse_cons, E. unfold solid in *. cbn [filter].
    now rewrite IH.
Qed.

Lemma endswith_snoc (p : str) (x y : ascii) :
  endswith (p ++ [x]) [y] = Ascii.eqb x y.
Proof.
  unfold endswith. rewrite rev_app_distr. cbn [rev app].
  rewrite startswith_cons, startswith_nil. apply andb_true_r.
Qed.

Lemma endswith_solid (u : str) (y : ascii) :
  no_trailing_space u = true -> endswith (solid u) [y] = endswith u [y].
Proof.
  intros T. destruct u as [|c t] using rev_ind; [reflexivity|].
  rewrite no_trailing_last in T. unfold solid. rewrite filter_app.
  cbn [filter]. rewrite T. now rewrite !endswith_snoc.
Qed.

(** X8: [normalize_summary] changes whitespace only, and adds a period
    after the last character when that is not a period. *)
Theorem X8_normalize_summary_keeps_text (summary : str) :
  solid (normalize_summary summary)
  = if endswith (solid summary) [DOT] then solid summary
    else solid summary ++ [DOT].
Proof.
  assert (S : solid (collapse (strip summary)) = solid summary)
    by (now rewrite solid_collapse, solid_strip).
  assert (T : no_trailing_space (collapse (strip summary)) = true).
  { destruct (strip summary) as [|c t] eqn:E; [reflexivity|].
    assert (H : trimmed (collapse (strip summary)) = true)
      by (apply collapse_strip_trimmed; rewrite E; discriminate).
    rewrite E in H. now apply trimmed_iff in H. }
  rewrite normalize_summary_unfold, <- S, (endswith_solid _ _ T).
  destruct (endswith (collapse (strip summary)) [DOT]); [reflexivity|].
  unfold solid. now rewrite filter_app.
Qed.

Lemma rstrip_length (s : str) : length (rstrip s) <= length s.
Proof.
  unfold rstrip. rewrite length_rev, <- (length_rev s). apply lstrip_length.
Qed.

Lemma collapse_length (s : str) : length (collapse s) <= length s.
Proof.
  induction s as [|c t E IH|c t E IH] using collapse_ind.
  - reflexivity.
  - rewrite collapse_cons, E. apply newline_ahead_shorter in E.
    cbn [length]. lia.
  - rewrite collapse_cons, E. cbn [length]. lia.
Qed.

(** X9: the normalized summary is at most one character longer than the
    summary. *)
Theorem X9_normalize_summary_length (summary : str) :
  length (normalize_summary summary) <= length summary + 1.
Proof.
  rewrite normalize_summary_unfold.
  pose proof (collapse_length (strip summary)) as C.
  pose proof (rstrip_length (lstrip summary)) as R.
  pose proof (lstrip_length summary) as L. fold (strip summary) in R.
  destruct (endswith (collapse (strip summary)) [DOT]).
  - lia.
  - rewrite length_app. cbn [length]. lia.
Qed.

End NormalizedMore.

(** ** More on the formatted docstring *)

Section FormattedMore.

Lemma indent_non_indented_bare (line indentation : str) :
  lstrip line = line ->
  indent_non_indented line indentation = indentation ++ line.
Proof.
  intros E. unfold indent_non_indented.
  now destruct (list_eq_dec ascii_dec (lstrip line) line).
Qed.

Lemma indent_non_indented_kept (line indentation : str) :
  lstrip line <> line -> indent_non_indented line indentation = line.
Proof.
  intros E. unfold indent_non_indented.
  now destruct (list_eq_dec ascii_dec (lstrip line) line).
Qed.

(** X10: under an indentation made of whitespace, indenting a line that was
    already through [indent_non_indented] changes nothing. *)
Theorem X10_indent_non_indented_idempotent (line indentation : str) :
  all_space indentation = true ->
  indent_non_indented (indent_non_indented line indentation) indentation
  = indent_non_indented line indentation.
Proof.
  intros H. destruct (list_eq_dec ascii_dec (lstrip line) line) as [E|E].
  - rewrite (indent_non_indented_bare line indentation E).
    destruct indentation as [|w ind].
    + now apply indent_non_indented_bare.
    + apply indent_non_indented_kept. intros F. apply lstrip_fixed in F.
      cbn in F, H. apply andb_true_iff in H as [Hw _].
      rewrite Hw in F. discriminate.
  - rewrite (indent_non_indented_kept line indentation E).
    now apply indent_non_indented_kept.
Qed.

Lemma X10_indent_non_indented_idempotent_witness :
  indent_non_indented (indent_non_indented (lit "text") (lit "    "))
    (lit "    ")
  = lit "    text".
Proof.
  exact (X10_indent_non_indented_idempotent (lit "text") (lit "    ") eq_refl).
Defined.

Lemma format_docstring_framed (indentation docstring out : str) :
  format_docstring indentation docstring = Ok out ->
  out <> [] ->
  exists inner, out = triple_double ++ inner ++ triple_double.
Proof.
  unfold format_docstring.
  destruct (strip_docstring docstring) as [c|]; cbn [bind]; [|discriminate].
  destruct (negb (truthy c)).
  { intros H. injection H as <-. contradiction. }
  destruct (split_summary_and_description c) as [sm ds].
  destruct (truthy ds); intros H _; injection H as <-.
  - exists (normalize_summary sm ++ [LF; LF]
            ++ join [LF]
                 (map (fun l => rstrip (indent_non_indented l indentation))
                      (Py.split LF ds))
            ++ [LF; LF] ++ indentation).
    now rewrite <- !app_assoc.
  - now exists c.
Qed.

Lemma framed_is_candidate (inner : str) :
  starts_with_triple (triple_double ++ inner ++ triple_double) = true.
Proof.
  unfold starts_with_triple, strip. rewrite lstrip_triple_double.
  rewrite app_assoc, rstrip_app_no_trailing by reflexivity.
  rewrite <- app_assoc, startswith_app. reflexivity.
Qed.

(** X11: a result of [format_docstring] that is not empty is delimited by
    three double quotes on both sides, whatever quotes the docstring had,
    and is again a text that [starts_with_triple] accepts. *)
Theorem X11_result_double_quoted (indentation docstring out : str) :
  format_docstring indentation docstring = Ok out ->
  out <> [] ->
  (exists inner, out = triple_double ++ inner ++ triple_double)
  /\ starts_with_triple out = true.
Proof.
  intros H Hout.
  destruct (format_docstring_framed indentation docstring out H Hout)
    as [inner E].
  split; [now exists inner|]. rewrite E. apply framed_is_candidate.
Qed.

Lemma X11_result_double_quoted_witness :
  let docstring := quadruple_single ++ lit "hello" ++ triple_single in
  format_docstring (lit "  ") docstring
  = Ok (triple_double ++ lit "'hello" ++ triple_double)
  /\ starts_with_triple (triple_double ++ lit "'hello" ++ triple_double)
     = true.
Proof.
  assert (H : format_docstring (lit "  ")
                (quadruple_single ++ lit "hello" ++ triple_single)
              = Ok (triple_double ++ lit "'hello" ++ triple_double))
    by reflexivity.
  split; [exact H|].
  apply (X11_result_double_quoted _ _ _ H). discriminate.
Defined.

(** X12: [format_docstring] is idempotent on its results that are not
    empty, under an indentation made of whitespace other than line
    breaks. *)
Theorem X12_format_docstring_idempotent (indentation docstring out : str) :
  indentation_like indentation = true ->
  format_docstring indentation docstring = Ok out ->
  out <> [] ->
  format_docstring indentation out = Ok out.
Proof. apply format_docstring_idempotent. Qed.

Lemma X12_format_docstring_idempotent_witness :
  format_docstring (lit "    ") second_doc = Ok formatted_doc
  /\ format_docstring (lit "    ") formatted_doc = Ok formatted_doc.
Proof.
  assert (H : format_docstring (lit "    ") second_doc = Ok formatted_doc)
    by reflexivity.
  split; [exact H|].
  apply (X12_format_docstring_idempotent (lit "    ") second_doc);
    [reflexivity | exact H | discriminate].
Defined.

Lemma split_join_app (lines : list str) (b : str) :
  lines <> [] -> Forall (fun l => ~ In LF l) lines ->
  Py.split LF (join [LF] lines ++ LF :: b) = lines ++ Py.split LF b.
Proof.
  induction lines as [|x rest IH]; [contradiction|]. intros _ H.
  inversion H as [|? ? Hx Hrest]; subst. destruct rest as [|y rest].
  - cbn [join app]. now apply split_app.
  - rewrite join_cons. rewrite <- app_assoc. cbn [app].
    rewrite split_app by exact Hx. rewrite IH; [reflexivity | discriminate|].
    exact Hrest.
Qed.

Lemma no_trailing_reindented (indentation line : str) :
  no_trailing_space (reindented indentation line) = true.
Proof. apply no_trailing_rstrip. Qed.

(** The lines of a docstring formatted with a description. *)
Lemma described_lines (indentation summary description : str) :
  ~ In LF indentation ->
  Py.split LF
    (triple_double ++ normalize_summary summary ++ [LF; LF]
     ++ join [LF] (map (reindented indentation) (Py.split LF description))
     ++ [LF; LF] ++ indentation ++ triple_double)
  = (triple_double ++ normalize_summary summary) :: []
    :: map (reindented indentation) (Py.split LF description)
    ++ [[]; indentation ++ triple_double].
Proof.
  intros Hi.
  set (lines := map (reindented indentation) (Py.split LF description)).
  assert (Hlines : Forall (fun l => ~ In LF l) lines).
  { unfold lines. apply Forall_map.
    eapply Forall_impl; [|apply split_lines_no_sep].
    intros l Hl. now apply reindented_line. }
  assert (Hne : lines <> []).
  { unfold lines. intros H. apply map_eq_nil in H.
    now apply split_not_nil in H. }
  replace (triple_double ++ normalize_summary summary ++ [LF; LF]
           ++ join [LF] lines ++ [LF; LF] ++ indentation ++ triple_double)
    with ((triple_double ++ normalize_summary summary)
          ++ LF :: LF :: (join [LF] lines
                          ++ LF :: LF :: indentation ++ triple_double))
    by (now rewrite <- !app_assoc).
  rewrite split_app.
  - rewrite split_cons_sep, (split_join_app lines _ Hne Hlines).
    rewrite split_cons_sep, split_no_sep; [reflexivity|].
    intros H. apply in_app_or in H as [H|H]; [contradiction|].
    cbn in H. intuition discriminate.
  - intros H. apply in_app_or in H as [H|H].
    + cbn in H. intuition discriminate.
    + now apply normalize_no_newline in H.
Qed.

Lemma described_no_trailing (indentation summary description : str) :
  ~ In LF indentation ->
  Forall (fun line => no_trailing_space line = true)
    (Py.split LF
       (triple_double ++ normalize_summary summary ++ [LF; LF]
        ++ join [LF] (map (reindented indentation) (Py.split LF description))
        ++ [LF; LF] ++ indentation ++ triple_double)).
Proof.
  intros Hi. rewrite described_lines by exact Hi.
  pose proof (normalize_trimmed summary) as T. apply trimmed_iff in T.
  constructor.
  - rewrite no_trailing_app; tauto.
  - constructor; [reflexivity|]. apply Forall_app. split.
    + apply Forall_map, Forall_forall. intros l _.
      apply no_trailing_reindented.
    + constructor; [reflexivity|]. constructor; [|constructor].
      now rewrite no_trailing_app.
Qed.

(** X13: when the description is not empty and the indentation holds no
    line break, no line of the formatted docstring ends with whitespace. *)
Theorem X13_no_trailing_whitespace
    (indentation docstring contents out : str) :
  ~ In LF indentation ->
  strip_docstring docstring = Ok contents ->
  snd (split_summary_and_description contents) <> [] ->
  format_docstring indentation docstring = Ok out ->
  Forall (fun line => no_trailing_space line = true) (Py.split LF out).
Proof.
  intros Hi Hc Hd H.
  destruct (split_summary_and_description contents) as [sm ds] eqn:E.
  cbn [snd] in Hd.
  assert (Hne : contents <> []).
  { intros ->. apply Hd. cbv in E. now injection E as _ <-. }
  rewrite (format_docstring_described indentation docstring contents sm ds
             Hc Hne E Hd) in H.
  injection H as <-. now apply described_no_trailing.
Qed.

Lemma X13_no_trailing_whitespace_witness :
  let contents :=
    lit "Sum  " ++ [LF; LF] ++ lit "more  " ++ [LF] ++ lit "  code  " ++ [LF]
    ++ lit "end" in
  let out :=
    triple_double ++ lit "Sum." ++ [LF; LF] ++ lit "    more" ++ [LF]
    ++ lit "  code" ++ [LF] ++ lit "    end" ++ [LF; LF] ++ lit "    "
    ++ triple_double in
  format_docstring (lit "    ") (triple_double ++ contents ++ triple_double)
  = Ok out
  /\ Forall (fun line => no_trailing_space line = true) (Py.split LF out).
Proof.
  split; [reflexivity|].
  refine (X13_no_trailing_whitespace (lit "    ")
            (triple_double
             ++ (lit "Sum  " ++ [LF; LF] ++ lit "more  " ++ [LF]
                 ++ lit "  code  " ++ [LF] ++ lit "end")
             ++ triple_double)
            (lit "Sum  " ++ [LF; LF] ++ lit "more  " ++ [LF]
             ++ lit "  code  " ++ [LF] ++ lit "end")
            _ _ _ _ _).
  - intros H. cbn in H. intuition discriminate.
  - reflexivity.
  - cbv. discriminate.
  - reflexivity.
Defined.

End FormattedMore.

(** ** The entry point: which files change *)

Section EntryPoint.

Import Main.

Variable generate_tokens : str -> result (list token).
Variable unified_diff : list str -> list str -> str -> str -> list str.
Variable reread : str -> str.
Variable writable : str -> bool.

Local Abbreviation write_file := (Main.write_file reread writable).
Local Abbreviation process :=
  (Main.process generate_tokens unified_diff reread writable).
Local Abbreviation process_all :=
  (Main.process_all generate_tokens unified_diff reread writable).
Local Abbreviation main :=
  (Main.main generate_tokens unified_diff reread writable).

Lemma str_eqb_eq (a b : str) : str_eqb a b = true <-> a = b.
Proof.
  unfold str_eqb. destruct (list_eq_dec ascii_dec a b); split; congruence.
Qed.

Lemma str_eqb_refl (a : str) : str_eqb a a = true.
Proof. now apply str_eqb_eq. Qed.

Lemma str_eqb_neq (a b : str) : a <> b -> str_eqb a b = false.
Proof.
  intros H. destruct (str_eqb a b) eqn:E; [|reflexivity].
  now apply str_eqb_eq in E.
Qed.

Lemma backup_name_differs (filename : str) :
  filename ++ lit ".backup" <> filename.
Proof.
  intros H. apply (f_equal (@length ascii)) in H.
  rewrite length_app in H. cbn in H. lia.
Qed.

Lemma write_file_done (w w' : world) (name text : str) :
  write_file w name text = Some w' ->
  writable name = true
  /\ file w' name = Some (reread text)
  /\ (forall n, n <> name -> file w' n = file w n)
  /\ stdout w' = stdout w.
Proof.
  unfold Main.write_file. destruct (writable name); [|discriminate].
  intros H. injection H as <-. cbn. rewrite str_eqb_refl.
  repeat split. intros n Hn. now rewrite str_eqb_neq.
Qed.

Lemma write_file_writable (w : world) (name text : str) :
  writable name = true -> exists w', write_file w name text = Some w'.
Proof. intros H. unfold Main.write_file. rewrite H. eauto. Qed.

Lemma write_file_locked (w : world) (name text : str) :
  writable name = false -> write_file w name text = None.
Proof. intros H. unfold Main.write_file. now rewrite H. Qed.

(** The backup step of lines 136-138. *)
Lemma backup_step (args : arguments) (w w1 : world) (filename source : str) :
  (if backup args then write_file w (filename ++ lit ".backup") source
   else Some w) = Some w1 ->
  (forall n, (backup args = true -> n <> filename ++ lit ".backup") ->
             file w1 n = file w n)
  /\ stdout w1 = stdout w.
Proof.
  destruct (backup args).
  - intros H. apply write_file_done in H as (_ & _ & H & Hs).
    split; [|exact Hs]. intros n Hn. apply H. now apply Hn.
  - intros H. injection H as <-. now split.
Qed.


(** What one file can change: itself and, with a backup, its backup. *)
Lemma process_frame (args : arguments) (w : world) (filename n : str) :
  n <> filename ->
  (backup args = true -> n <> filename ++ lit ".backup") ->
  file (fst (process args w filename)) n = file w n.
Proof.
  intros H1 H2. unfold Main.process.
  destruct (file w filename) as [source|]; [|reflexivity].
  destruct (format_code generate_tokens source); [|reflexivity].
  destruct (in_place args); [|reflexivity].
  destruct (if backup args
            then write_file w (filename ++ lit ".backup") source
            else Some w) as [w1|] eqn:B; [|reflexivity].
  apply backup_step in B as [B _].
  destruct (write_file w1 filename a) as [w2|] eqn:W; cbn [fst].
  - apply write_file_done in W as (_ & _ & W & _).
    rewrite W by exact H1. now apply B.
  - now apply B.
Qed.

Lemma process_diff_mode (args : arguments) (w : world) (filename : str) :
  in_place args = false ->
  file (fst (process args w filename)) = file w.
Proof.
  intros H. unfold Main.process. rewrite H.
  destruct (file w filename) as [source|]; [|reflexivity].
  now destruct (format_code generate_tokens source).
Qed.

Lemma process_in_place_stdout (args : arguments) (w : world) (filename : str) :
  in_place args = true ->
  stdout (fst (process args w filename)) = stdout w.
Proof.
  intros H. unfold Main.process. rewrite H.
  destruct (file w filename) as [source|]; [|reflexivity].
  destruct (format_code generate_tokens source); [|reflexivity].
  destruct (if backup args
            then write_file w (filename ++ lit ".backup") source
            else Some w) as [w1|] eqn:B; [|reflexivity].
  apply backup_step in B as [_ B].
  destruct (write_file w1 filename a) as [w2|] eqn:W; cbn [fst];
    [|exact B].
  apply write_file_done in W as (_ & _ & _ & W). congruence.
Qed.

Lemma process_all_cons (args : arguments) (w : world) (filename : str)
    (rest : list str) :
  process_all args w (filename :: rest)
  = match process args w filename with
    | (w', None) => process_all args w' rest
    | (w', Some e) => (w', Some e)
    end.
Proof. reflexivity. Qed.

(** X14: without [--in-place] no file is changed, whatever the files hold;
    with [--in-place] nothing is written to the standard output. *)
Theorem X14_diff_mode_keeps_files (args : arguments) (w : world) :
  (in_place args = false -> file (fst (main args w)) = file w)
  /\ (in_place args = true -> stdout (fst (main args w)) = stdout w).
Proof.
  unfold Main.main. split; intros H; revert w;
    induction (files args) as [|f rest IH]; intros w; try reflexivity;
    rewrite process_all_cons.
  - pose proof (process_diff_mode args w f H) as P.
    destruct (process args w f) as [w' [e|]]; cbn [fst] in *.
    + exact P.
    + now rewrite IH.
  - pose proof (process_in_place_stdout args w f H) as P.
    destruct (process args w f) as [w' [e|]]; cbn [fst] in *.
    + exact P.
    + now rewrite IH.
Qed.

(** X15: with [--in-place] and a backup, a file that is read and formatted,
    and that can be opened for writing as its backup can, is replaced by
    the formatted text; its backup holds the text that was read, and no
    other file changes. *)
Theorem X15_in_place_with_backup (args : arguments) (w : world)
    (filename source formatted_source : str) :
  in_place args = true -> backup args = true ->
  file w filename = Some source ->
  format_code generate_tokens source = Ok formatted_source ->
  writable (filename ++ lit ".backup") = true ->
  writable filename = true ->
  exists w',
    process args w filename = (w', None)
    /\ file w' filename = Some (reread formatted_source)
    /\ file w' (filename ++ lit ".backup") = Some (reread source)
    /\ (forall n, n <> filename -> n <> filename ++ lit ".backup" ->
                  file w' n = file w n).
Proof.
  intros Hi Hb Hf Hc Wb Wf. unfold Main.process. rewrite Hf, Hc, Hi, Hb.
  destruct (write_file_writable w _ source Wb) as [w1 E1]. rewrite E1.
  destruct (write_file_writable w1 _ formatted_source Wf) as [w2 E2].
  rewrite E2. exists w2.
  apply write_file_done in E1 as (_ & B1 & B2 & _).
  apply write_file_done in E2 as (_ & F1 & F2 & _).
  split; [reflexivity|]. split; [exact F1|]. split.
  - rewrite F2 by apply backup_name_differs. exact B1.
  - intros n H1 H2. rewrite F2 by exact H1. now apply B2.
Qed.


(** X17: [main] changes no file other than the files it is given and, when
    backups are written, their backups. *)
Theorem X17_other_files_kept (args : arguments) (w : world) (n : str) :
  ~ In n (files args) ->
  (backup args = true ->
   ~ In n (map (fun f => f ++ lit ".backup") (files args))) ->
  file (fst (main args w)) n = file w n.
Proof.
  unfold Main.main. revert w.
  induction (files args) as [|f rest IH]; intros w H1 H2; [reflexivity|].
  rewrite process_all_cons.
  assert (P : file (fst (process args w f)) n = file w n).
  { apply process_frame.
    - intros ->. apply H1. now left.
    - intros Hb ->. apply (H2 Hb). now left. }
  destruct (process args w f) as [w' [e|]]; cbn [fst] in *; [exact P|].
  rewrite IH; [exact P | |].
  - intros Hin. apply H1. now right.
  - intros Hb Hin. apply (H2 Hb). now right.
Qed.

(** X18: with [--in-place] and a backup, when the backup cannot be opened
    for writing nothing is changed; when the backup is written and the file
    itself cannot be opened for writing, the file is left as it was and the
    backup holds the text that was read. *)
Theorem X18_write_failures (args : arguments) (w : world)
    (filename source formatted_source : str) :
  in_place args = true -> backup args = true ->
  file w filename = Some source ->
  format_code generate_tokens source = Ok formatted_source ->
  (writable (filename ++ lit ".backup") = false ->
   process args w filename
   = (w, Some (CannotWrite (filename ++ lit ".backup"))))
  /\ (writable (filename ++ lit ".backup") = true ->
      writable filename = false ->
      exists w',
        process args w filename = (w', Some (CannotWrite filename))
        /\ file w' filename = Some source
        /\ file w' (filename ++ lit ".backup") = Some (reread source)
        /\ (forall n, n <> filename ++ lit ".backup" ->
                      file w' n = file w n)).
Proof.
  intros Hi Hb Hf Hc. unfold Main.process. rewrite Hf, Hc, Hi, Hb. split.
  - intros Wb. now rewrite write_file_locked.
  - intros Wb Wf. destruct (write_file_writable w _ source Wb) as [w1 E1].
    rewrite E1, write_file_locked by exact Wf. exists w1.
    apply write_file_done in E1 as (_ & B1 & B2 & _).
    split; [reflexivity|]. split; [|split; [exact B1 | exact B2]].
    rewrite B2; [exact Hf|].
    intros E. symmetry in E. now apply backup_name_differs in E.
Qed.

End EntryPoint.

(** ** A run of the entry point on two files *)

Section SampleRun.

Import Main Run.

Lemma X14_diff_mode_keeps_files_witness :
  file (fst (Main.main sample_tokens no_diff same all_writable
               (show_diff [lit "a.py"; lit "b.py"]) sample_world))
  = file sample_world.
Proof.
  apply (proj1 (X14_diff_mode_keeps_files sample_tokens no_diff same
                  all_writable (show_diff [lit "a.py"; lit "b.py"])
                  sample_world)).
  reflexivity.
Defined.

Lemma X15_in_place_with_backup_witness :
  exists w',
    Main.process sample_tokens no_diff same all_writable
      (rewrite_with_backup []) sample_world (lit "a.py") = (w', None)
    /\ file w' (lit "a.py") = Some first_pass
    /\ file w' (lit "a.py.backup") = Some two_strings_source
    /\ (forall n, n <> lit "a.py" -> n <> lit "a.py.backup" ->
                  file w' n = file sample_world n).
Proof.
  apply (X15_in_place_with_backup sample_tokens no_diff same all_writable
           (rewrite_with_backup []) sample_world (lit "a.py")
           two_strings_source first_pass); reflexivity.
Defined.


Lemma X17_other_files_kept_witness :
  file (fst (Main.main sample_tokens no_diff same all_writable
               (rewrite_with_backup [lit "a.py"]) sample_world))
    (lit "b.py")
  = Some assign_source.
Proof.
  refine (X17_other_files_kept sample_tokens no_diff same all_writable
            (rewrite_with_backup [lit "a.py"]) sample_world (lit "b.py") _ _).
  - intros [H|[]]. discriminate H.
  - intros _ [H|[]]. discriminate H.
Defined.

Lemma X18_write_failures_witness :
  Main.process sample_tokens no_diff same (all_but (lit "a.py.backup"))
    (rewrite_with_backup []) sample_world (lit "a.py")
  = (sample_world, Some (CannotWrite (lit "a.py.backup")))
  /\ exists w',
       Main.process sample_tokens no_diff same (all_but (lit "a.py"))
         (rewrite_with_backup []) sample_world (lit "a.py")
       = (w', Some (CannotWrite (lit "a.py")))
       /\ file w' (lit "a.py") = Some two_strings_source
       /\ file w' (lit "a.py.backup") = Some two_strings_source
       /\ (forall n, n <> lit "a.py.backup" -> file w' n = file sample_world n).
Proof.
  split.
  - apply (proj1 (X18_write_failures sample_tokens no_diff same
                    (all_but (lit "a.py.backup")) (rewrite_with_backup [])
                    sample_world (lit "a.py") two_strings_source first_pass
                    eq_refl eq_refl eq_refl eq_refl)).
    reflexivity.
  - apply (proj2 (X18_write_failures sample_tokens no_diff same
                    (all_but (lit "a.py")) (rewrite_with_backup [])
                    sample_world (lit "a.py") two_strings_source first_pass
                    eq_refl eq_refl eq_refl eq_refl)); reflexivity.
Defined.

End SampleRun.

(** ** The summary line of a formatted docstring *)

Section SummaryLineOfResult.

















End SummaryLineOfResult.
